(** * Piano-MusicGeneration: the corpus extractor and the sequence encoder

    A shallow embedding of [src/train-network.py]: [get_notes] (event
    extraction and persistence of the corpus) and [prepare_sequences]
    (vocabulary, sliding windows, normalised input tensor, one-hot target
    tensor), followed by the properties of the specification that concern
    them.

    Conventions.
    - A token is a Python [str], embedded as a [string]; comparison of
      tokens is lexicographic on characters, as Python's is on code points.
    - A Python exception is a value of [exn]; a computation that may raise
      returns a [result].
    - A NumPy array is a shape together with its row-major buffer, as NumPy
      stores it.
    - A float is embedded as an exact rational, extended with the special
      values a division by zero produces; rounding is not modelled. *)

From Stdlib Require Import ZArith QArith String Ascii DecimalString.
From stdpp Require Import gmap strings list sorting fin_maps.

Local Open Scope nat_scope.

(** ** Exceptions and fallible computations *)

Inductive exn : Type :=
  | KeyError
  | IndexError
  | ValueError
  | TypeError
  | AttributeError
  | LibraryError (msg : string).

Inductive result (A : Type) : Type :=
  | OK (a : A)
  | Raise (e : exn).
Arguments OK {A} a.
Arguments Raise {A} e.

Global Instance result_ret : MRet result := λ A a, OK a.
Global Instance result_bind : MBind result := λ A B k r,
  match r with
  | OK a => k a
  | Raise e => Raise e
  end.
(** A comprehension [[f x for x in l]] whose body may raise. *)
Fixpoint rmap {A B} (f : A → result B) (l : list A) : result (list B) :=
  match l with
  | [] => OK []
  | x :: l' => y ← f x; ys ← rmap f l'; OK (y :: ys)
  end.

(** ** The vocabulary (lines 81-84) *)

(** [sorted(xs)] on strings: a stable sort by [<=] on code points. *)
Definition sorted (xs : list string) : list string :=
  merge_sort String.le xs.

(** [set(note for note in notes)]; Python iterates a set in an order of
    its own, here the order of [elements]. *)
Definition py_set (notes : list string) : gset string :=
  list_to_set notes.

(** [enumerate(xs)] *)
Definition enumerate {A} (xs : list A) : list (nat * A) :=
  imap (λ number x, (number, x)) xs.

(** [dict((pitch, number) for number, pitch in pairs)]: the pairs are
    inserted from left to right, a later pair replacing an earlier one
    with the same key. *)
Definition dict_of (pairs : list (nat * string)) : gmap string nat :=
  foldl (λ d p, <[p.2 := p.1]> d) ∅ pairs.

(** line 81 *)
Definition pitch_names (notes : list string) : list string :=
  sorted (elements (py_set notes)).

(** line 84 *)
Definition pitch_to_int (notes : list string) : gmap string nat :=
  dict_of (enumerate (pitch_names notes)).

(** [d[key]] on a dictionary *)
Definition dict_getitem (d : gmap string nat) (key : string) : result nat :=
  match d !! key with
  | Some number => OK number
  | None => Raise KeyError
  end.

(** ** Lists: indexing and slicing with indices that are not negative *)

(** [xs[i]] *)
Definition list_getitem {A} (xs : list A) (i : nat) : result A :=
  match xs !! i with
  | Some x => OK x
  | None => Raise IndexError
  end.

(** [xs[i:j]]; a slice never raises, it is clipped to the list. *)
Definition list_slice {A} (xs : list A) (i j : nat) : list A :=
  take (j - i) (drop i xs).

(** ** NumPy arrays and floats *)

Record ndarray (A : Type) : Type := Ndarray {
  shape : list nat;
  data : list A
}.
Arguments Ndarray {A} shape data.
Arguments shape {A} _.
Arguments data {A} _.

(** Number of entries of an array of the given shape. *)
Definition shape_size (sh : list nat) : nat := foldr Nat.mul 1 sh.



(** [numpy.asarray] on a list of lists of integers: the rows must have one
    length; the empty list gives an array of shape [(0,)]. *)
Definition np_asarray (rows : list (list nat)) : result (ndarray nat) :=
  match rows with
  | [] => OK (Ndarray [0] [])
  | r :: _ =>
      if decide (Forall (λ r', length r' = length r) rows)
      then OK (Ndarray [length rows; length r] (concat rows))
      else Raise ValueError
  end.

(** [a.reshape(newshape)]: the numbers of entries must agree. *)
Definition ndarray_reshape {A} (a : ndarray A) (newshape : list nat)
  : result (ndarray A) :=
  if decide (shape_size newshape = length (data a))
  then OK (Ndarray newshape (data a))
  else Raise ValueError.

(** [numpy.reshape(rows, newshape)] *)
Definition np_reshape (rows : list (list nat)) (newshape : list nat)
  : result (ndarray nat) :=
  a ← np_asarray rows; ndarray_reshape a newshape.

(** A double: an exact rational, or one of the special values. *)
Inductive float64 : Type :=
  | Finite (q : Q)
  | PosInf
  | NegInf
  | NaN.

(** [float(n)] on an integer *)
Definition py_float (n : Z) : float64 := Finite (inject_Z n).

(** [x / d] for an integer entry [x] of an array and a float [d]; NumPy
    does not raise on a zero divisor, it yields an infinity or a NaN. *)
Definition true_divide (x : nat) (d : float64) : float64 :=
  match d with
  | Finite q =>
      if Qeq_bool q 0
      then match x with O => NaN | S _ => PosInf end
      else Finite (inject_Z (Z.of_nat x) / q)
  | PosInf | NegInf => Finite 0
  | NaN => NaN
  end.

(** [a / d], entry by entry *)
Definition ndarray_divide (a : ndarray nat) (d : float64) : ndarray float64 :=
  Ndarray (shape a) (map (λ x, true_divide x d) (data a)).

(** One row of a one-hot matrix: [width] entries, a one at [k]. *)
Definition one_hot (width k : nat) : list Q :=
  map (λ j, if decide (j = k) then 1%Q else 0%Q) (seq 0 width).

(** [keras.utils.to_categorical(y)] with no class count: the count is
    [numpy.max(y) + 1], and the maximum of an empty array raises
    [ValueError]. *)
Definition to_categorical (y : list nat) : result (ndarray Q) :=
  match y with
  | [] => Raise ValueError
  | _ :: _ =>
      let num_classes := max_list y + 1 in
      OK (Ndarray [length y; num_classes] (concat (map (one_hot num_classes) y)))
  end.

(** ** prepare_sequences (lines 72-113) *)

(** Body of the loop of lines 96-100 at index [i]: the window, the token
    after it, and their codes. *)
Definition encode_at (sequence_length : nat) (notes : list string)
    (pitch_to_int : gmap string nat) (i : nat) : result (list nat * nat) :=
  let sequence_in := list_slice notes i (i + sequence_length) in
  sequence_out ← list_getitem notes (i + sequence_length);
  codes ← rmap (dict_getitem pitch_to_int) sequence_in;
  code ← dict_getitem pitch_to_int sequence_out;
  OK (codes, code).

(** The loop over [range(0, len(notes) - sequence_length)], appending to
    [input_sequences] and [output_sequence]. *)
Fixpoint encode_loop (sequence_length : nat) (notes : list string)
    (pitch_to_int : gmap string nat) (range : list nat)
    (input_sequences : list (list nat)) (output_sequence : list nat)
  : result (list (list nat) * list nat) :=
  match range with
  | [] => OK (input_sequences, output_sequence)
  | i :: range' =>
      ex ← encode_at sequence_length notes pitch_to_int i;
      encode_loop sequence_length notes pitch_to_int range'
        (input_sequences ++ [ex.1]) (output_sequence ++ [ex.2])
  end.

(** [range(0, stop - sub)]: empty when [stop <= sub]. *)
Definition py_range (stop sub : nat) : list nat := seq 0 (stop - sub).

(** Lines 81-100: the training examples, for a window length. *)
Definition training_examples (sequence_length : nat) (notes : list string)
  : result (list (list nat) * list nat) :=
  encode_loop sequence_length notes (pitch_to_int notes)
    (py_range (length notes) sequence_length) [] [].

(** The function, with the constant of line 78 as a parameter. *)
Definition prepare_sequences_with (sequence_length : nat)
    (notes : list string) (num_pitch_classes : Z)
  : result (ndarray float64 * ndarray Q) :=
  ex ← training_examples sequence_length notes;
  let num_sequences := length ex.1 in
  input_sequences ← np_reshape ex.1 [num_sequences; sequence_length; 1];
  let input_sequences :=
    ndarray_divide input_sequences (py_float num_pitch_classes) in
  output_sequence ← to_categorical ex.2;
  OK (input_sequences, output_sequence).

(** line 78 *)
Definition sequence_length : nat := 100.

Definition prepare_sequences (notes : list string) (num_pitch_classes : Z)
  : result (ndarray float64 * ndarray Q) :=
  prepare_sequences_with sequence_length notes num_pitch_classes.

(** ** get_notes (lines 31-69) *)

(** An element of a music21 stream, as the loop of lines 56-62 tells them
    apart: a note with the text of its pitch, a chord with its normal
    order, or anything else (a rest, an instrument, a metadata object). *)
Inductive structure : Type :=
  | Note (pitch : string)
  | Chord (normalOrder : list Z)
  | OtherElement.

(** A parsed score, by what [get_notes] asks of it.
    [partitionByInstrument] raises, returns [None], or returns a score
    whose [parts] are given here by the stream of their [recurse()];
    [flat_notes] is the stream [parsed_midi.flat.notes]. *)
Record score : Type := Score {
  partitionByInstrument : result (option (list (list structure)));
  flat_notes : list structure
}.

(** The collaborators of [get_notes]: [glob.glob], [music21]'s
    [converter.parse] and [pickle]. *)
Record collaborators : Type := Collaborators {
  glob_glob : string → list string;
  converter_parse : string → result score;
  pickle_dumps : list string → list Byte.byte;
  pickle_loads : list Byte.byte → result (list string)
}.

(** What [get_notes] acts on: the files it may write and the console. *)
Record world : Type := World {
  files : gmap string (list Byte.byte);
  stdout : list string
}.

(** A computation that reads and writes the world and may raise. *)
Definition io (A : Type) : Type := world → result A * world.

Global Instance io_ret : MRet io := λ A a w, (OK a, w).
Global Instance io_bind : MBind io := λ A B k m w,
  match m w with
  | (OK a, w') => k a w'
  | (Raise e, w') => (Raise e, w')
  end.

Definition io_lift {A} (r : result A) : io A := λ w, (r, w).

(** [print(line)] *)
Definition print (line : string) : io unit :=
  λ w, (OK (), World (files w) (stdout w ++ [line])).

(** [with open(path, 'wb') as file: file.write(content)]: the file is
    created or truncated, then holds [content]. *)
Definition write_binary (path : string) (content : list Byte.byte) : io unit :=
  λ w, (OK (), World (<[path := content]> (files w)) (stdout w)).

(** [str(n)] on an integer *)
Definition str_int (n : Z) : string := NilZero.string_of_int (Z.to_int n).

(** Lines 49-50, the body of the [try]: [None.parts] raises
    [AttributeError], [parts[0]] raises [IndexError] when there is no
    part. *)
Definition first_part_stream (parsed_midi : score) : result (list structure) :=
  instrument_parts ← partitionByInstrument parsed_midi;
  match instrument_parts with
  | None => Raise AttributeError
  | Some parts => list_getitem parts 0
  end.

(** Lines 46-53: the bare [except] catches every exception. *)
Definition notes_by_instrument (parsed_midi : score) : list structure :=
  match first_part_stream parsed_midi with
  | OK stream => stream
  | Raise _ => flat_notes parsed_midi
  end.

(** Lines 57-62 for one element: the token appended, if any. *)
Definition token_of (s : structure) : option string :=
  match s with
  | Note pitch => Some pitch
  | Chord normalOrder => Some (String.concat "." (map str_int normalOrder))
  | OtherElement => None
  end.

(** Lines 56-62: the loop over one stream, appending to [notes]. *)
Fixpoint append_tokens (notes : list string) (stream : list structure)
  : list string :=
  match stream with
  | [] => notes
  | s :: stream' =>
      match token_of s with
      | Some token => append_tokens (notes ++ [token]) stream'
      | None => append_tokens notes stream'
      end
  end.

(** Lines 42-62: the loop over the files. *)
Fixpoint parse_files (E : collaborators) (paths : list string)
    (notes : list string) : io (list string) :=
  match paths with
  | [] => mret notes
  | file :: paths' =>
      _ ← print ("Parsing file " +:+ file);
      parsed_midi ← io_lift (converter_parse E file);
      parse_files E paths'
        (append_tokens notes (notes_by_instrument parsed_midi))
  end.

(** Lines 38-69 *)
Definition get_notes (E : collaborators) (directory : string)
  : io (list string) :=
  notes ← parse_files E (glob_glob E directory) [];
  _ ← write_binary "data/notes" (pickle_dumps E notes);
  mret notes.

(** ** prepare_sequences on a store of list objects

    The same function, with the lists it handles as objects of a store:
    the corpus is an object the caller owns, and [input_sequences],
    [output_sequence], the slices and the comprehensions are objects the
    function creates and appends to. *)

Abbreviation loc := positive (only parsing).

Inductive pyval : Type :=
  | VStr (s : string)
  | VInt (n : nat)
  | VRef (l : loc).

Abbreviation store := (gmap loc (list pyval)) (only parsing).

Definition st (A : Type) : Type := store → result A * store.

Global Instance st_ret : MRet st := λ A a h, (OK a, h).
Global Instance st_bind : MBind st := λ A B k m h,
  match m h with
  | (OK a, h') => k a h'
  | (Raise e, h') => (Raise e, h')
  end.

Definition st_lift {A} (r : result A) : st A := λ h, (r, h).

(** A new list object holding [xs]. *)
Definition new_list (xs : list pyval) : st loc :=
  λ h, let l := fresh (dom h) in (OK l, <[l := xs]> h).

(** The items of the list object at [l]. *)
Definition read_list (l : loc) : st (list pyval) :=
  λ h, match h !! l with
       | Some xs => (OK xs, h)
       | None => (Raise (LibraryError "SystemError"), h)
       end.

(** [l.append(v)]: the object at [l] is changed in place. *)
Definition list_append (l : loc) (v : pyval) : st unit :=
  λ h, match h !! l with
       | Some xs => (OK (), <[l := xs ++ [v]]> h)
       | None => (Raise (LibraryError "SystemError"), h)
       end.

(** A token of the corpus is a [str]. *)
Definition as_str (v : pyval) : result string :=
  match v with
  | VStr s => OK s
  | _ => Raise TypeError
  end.

(** An entry of a list of codes is an [int]. *)
Definition as_int (v : pyval) : result nat :=
  match v with
  | VInt n => OK n
  | _ => Raise TypeError
  end.

(** An entry of [input_sequences] is a list object. *)
Definition as_ref (v : pyval) : result loc :=
  match v with
  | VRef l => OK l
  | _ => Raise TypeError
  end.

(** [l[i:j]]: a new list object. *)
Definition getslice (l : loc) (i j : nat) : st loc :=
  xs ← read_list l; new_list (list_slice xs i j).

(** [l[i]] *)
Definition getitem (l : loc) (i : nat) : st pyval :=
  xs ← read_list l; st_lift (list_getitem xs i).

(** [[pitch_to_int[pitch] for pitch in sequence_in]]: a new list object. *)
Definition comprehension (pitch_to_int : gmap string nat) (sequence_in : loc)
  : st loc :=
  xs ← read_list sequence_in;
  codes ← st_lift (rmap (λ v, pitch ← as_str v; dict_getitem pitch_to_int pitch) xs);
  new_list (VInt <$> codes).

(** Lines 97-100 at index [i]. *)
Definition store_encode_at (sequence_length : nat) (notes : loc)
    (pitch_to_int : gmap string nat) (input_sequences output_sequence : loc)
    (i : nat) : st unit :=
  sequence_in ← getslice notes i (i + sequence_length);
  sequence_out ← getitem notes (i + sequence_length);
  codes ← comprehension pitch_to_int sequence_in;
  _ ← list_append input_sequences (VRef codes);
  code ← st_lift (pitch ← as_str sequence_out; dict_getitem pitch_to_int pitch);
  list_append output_sequence (VInt code).

(** The loop of lines 96-100 over [range]. *)
Fixpoint store_encode_loop (sequence_length : nat) (notes : loc)
    (pitch_to_int : gmap string nat) (input_sequences output_sequence : loc)
    (range : list nat) : st unit :=
  match range with
  | [] => mret ()
  | i :: range' =>
      _ ← store_encode_at sequence_length notes pitch_to_int
            input_sequences output_sequence i;
      store_encode_loop sequence_length notes pitch_to_int
        input_sequences output_sequence range'
  end.

(** The rows of a list of lists of integers, as [numpy.reshape] reads
    them. *)
Fixpoint read_rows (ls : list pyval) : st (list (list nat)) :=
  match ls with
  | [] => mret []
  | v :: ls' =>
      l ← st_lift (as_ref v);
      xs ← read_list l;
      r ← st_lift (rmap as_int xs);
      rs ← read_rows ls';
      mret (r :: rs)
  end.

(** Lines 78-113, with the constant of line 78 as a parameter; the corpus
    is read from the object at [notes]. *)
Definition store_prepare_sequences_with (sequence_length : nat)
    (notes : loc) (num_pitch_classes : Z)
  : st (ndarray float64 * ndarray Q) :=
  items ← read_list notes;
  tokens ← st_lift (rmap as_str items);
  let pitch_to_int := pitch_to_int tokens in
  input_sequences ← new_list [];
  output_sequence ← new_list [];
  _ ← store_encode_loop sequence_length notes pitch_to_int
        input_sequences output_sequence
        (py_range (length items) sequence_length);
  ins ← read_list input_sequences;
  let num_sequences := length ins in
  rows ← read_rows ins;
  array ← st_lift (np_reshape rows [num_sequences; sequence_length; 1]);
  let array := ndarray_divide array (py_float num_pitch_classes) in
  outs ← read_list output_sequence;
  targets ← st_lift (rmap as_int outs);
  y ← st_lift (to_categorical targets);
  mret (array, y).

Definition store_prepare_sequences (notes : loc) (num_pitch_classes : Z)
  : st (ndarray float64 * ndarray Q) :=
  store_prepare_sequences_with sequence_length notes num_pitch_classes.

(** * Definitions used to state the properties *)

(** The code of a token, and the examples the loop is to build, written
    without the loop; they are compared with the code below. *)
Definition code_of (d : gmap string nat) (t : string) : nat :=
  default 0 (d !! t).

Definition window_codes (W : nat) (notes : list string)
    (d : gmap string nat) (i : nat) : list nat :=
  map (code_of d) (take W (drop i notes)).

Definition target_code (W : nat) (notes : list string)
    (d : gmap string nat) (i : nat) : nat :=
  code_of d (default "" (notes !! (i + W))).


(** ** Concrete corpora *)

(** The corpus of the scenario of the specification. *)
Definition scenario : list string := ["C4"; "D4"; "E4"; "C4"].

(** A corpus of 101 tokens whose greatest token is never a target. *)
Definition corpus101 : list string := "B" :: replicate 100 "A".

(** ** Concrete collaborators *)

(** A serialisation that ends every token with a zero byte, and its
    inverse on tokens without one. *)
Definition nul_dumps (notes : list string) : list Byte.byte :=
  concat (map (λ t, list_byte_of_string t ++ [Byte.x00]) notes).

Fixpoint nul_split (cur : list Byte.byte) (bs : list Byte.byte)
  : list string :=
  match bs with
  | [] => []
  | b :: bs' =>
      if Byte.eqb b Byte.x00
      then string_of_list_byte (rev cur) :: nul_split [] bs'
      else nul_split (b :: cur) bs'
  end.

Definition nul_loads (bs : list Byte.byte) : result (list string) :=
  OK (nul_split [] bs).

Definition melody : score :=
  Score (OK (Some [[Note "C4"; OtherElement; Chord [0; 4; 7]%Z; Note "E4"];
                   [Note "G2"]]))
        [Note "C4"; Chord [0; 4; 7]%Z; Note "E4"; Note "G2"].

Definition monophonic : score :=
  Score (OK None) [Note "A4"; OtherElement; Note "B4"].

(** Three files: two that parse and one that does not. *)
Definition studio : collaborators :=
  Collaborators
    (λ directory,
       if decide (directory = "midi/*.mid")
       then ["midi/a.mid"; "midi/b.mid"]
       else if decide (directory = "broken/*.mid")
            then ["midi/a.mid"; "broken/x.mid"; "midi/b.mid"]
            else [])
    (λ file,
       if decide (file = "midi/a.mid") then OK melody
       else if decide (file = "midi/b.mid") then OK monophonic
            else Raise (LibraryError "MidiException"))
    nul_dumps nul_loads.

Definition blank : world := World ∅ [].


(** The tokens one file contributes, and the corpus of a list of files:
    the tokens of the files one after the other. *)
Definition tokens_of_file (E : collaborators) (file : string) : list string :=
  match converter_parse E file with
  | OK parsed_midi => omap token_of (notes_by_instrument parsed_midi)
  | Raise _ => []
  end.

Definition corpus_of (E : collaborators) (paths : list string) : list string :=
  concat (map (tokens_of_file E) paths).

(** ** The invariant of the loop on a store *)

(** What the loop keeps true: the objects of the initial store [h0] are
    as they were, [input_sequences] lists the objects of the windows
    built so far and [output_sequence] holds the targets built so far. *)
Record loop_inv (h0 : store) (li lo : loc) (rls : list loc)
    (rows : list (list nat)) (outs : list nat) (h : store) : Prop := LoopInv {
  inv_frame : h0 ⊆ h;
  inv_ins : h !! li = Some (VRef <$> rls);
  inv_outs : h !! lo = Some (VInt <$> outs);
  inv_rows : Forall2 (λ rl r, h !! rl = Some (VInt <$> r)) rls rows;
  inv_li_lo : li ≠ lo;
  inv_li_new : h0 !! li = None;
  inv_lo_new : h0 !! lo = None;
  inv_li_rls : li ∉ rls;
  inv_lo_rls : lo ∉ rls
}.


From Stdlib Require Import DecimalZ DecimalPos.

(** ** create_network (lines 19-29 and 117-149) *)

Definition LSTM_UNITS : Z := 512.
Definition RECURRENT_DROPOUT_RATE : Q := 3 # 10.
Definition DROPOUT_RATE : Q := 3 # 10.
Definition HIDDEN_LAYER_ACTIVATION_FUNCTION : string := "relu".
Definition OUTPUT_LAYER_ACTIVATION_FUNCTION : string := "softmax".
Definition DENSE_UNITS : Z := 256.
Definition LOSS_FUNCTION : string := "categorical_crossentropy".
Definition OPTIMIZER : string := "rmsprop".

(** A Keras layer, by the arguments [create_network] gives it; an
    argument left out has the default of Keras ([recurrent_dropout=0.0],
    [return_sequences=False], no [input_shape]). *)
Inductive layer : Type :=
  | LSTM (units : Z) (input_shape : option (Z * Z)) (recurrent_dropout : Q)
      (return_sequences : bool)
  | BatchNormalization
  | Dropout (rate : Q)
  | Dense (units : Z)
  | Activation (name : string).

(** A compiled [Sequential] model: its layers in the order of the calls
    to [add], and the arguments of [compile]. *)
Record network : Type := Network {
  layers : list layer;
  loss : string;
  optimizer : string
}.

(** [t[i]] on a tuple, here the shape of an array *)
Definition tuple_getitem (t : list nat) (i : nat) : result Z :=
  d ← list_getitem t i; OK (Z.of_nat d).

(** Lines 132-149. [input_data.shape[1]] and [input_data.shape[2]] are
    evaluated when the first layer is built. *)
Definition create_network {A} (input_data : ndarray A) (num_classes : Z)
  : result network :=
  timesteps ← tuple_getitem (shape input_data) 1;
  features ← tuple_getitem (shape input_data) 2;
  OK (Network
        [LSTM LSTM_UNITS (Some (timesteps, features)) RECURRENT_DROPOUT_RATE true;
         LSTM LSTM_UNITS None RECURRENT_DROPOUT_RATE true;
         LSTM LSTM_UNITS None 0 false;
         BatchNormalization;
         Dropout DROPOUT_RATE;
         Dense DENSE_UNITS;
         Activation HIDDEN_LAYER_ACTIVATION_FUNCTION;
         BatchNormalization;
         Dropout DROPOUT_RATE;
         Dense num_classes;
         Activation OUTPUT_LAYER_ACTIVATION_FUNCTION]
        LOSS_FUNCTION OPTIMIZER).

(** The shape of the output of a layer for one sample, from the shape of
    its input, as Keras infers it: a recurrent layer takes a sequence of
    vectors and gives a sequence or a vector; a dense layer replaces the
    last dimension; the other layers keep the shape. *)
Definition layer_output_shape (l : layer) (input : list Z) : result (list Z) :=
  match l with
  | LSTM units _ _ return_sequences =>
      match input with
      | [timesteps; _] =>
          OK (if return_sequences then [timesteps; units] else [units])
      | _ => Raise ValueError
      end
  | Dense units =>
      match input with
      | [] => Raise ValueError
      | _ :: _ => OK (removelast input ++ [units])
      end
  | BatchNormalization | Dropout _ | Activation _ => OK input
  end.

(** The shape of the samples a model takes: the [input_shape] of its
    first layer. *)
Definition network_input_shape (m : network) : option (list Z) :=
  match layers m with
  | LSTM _ (Some (timesteps, features)) _ _ :: _ => Some [timesteps; features]
  | _ => None
  end.

(** The shape of the output of a stack of layers for one sample. *)
Fixpoint stack_output_shape (ls : list layer) (input : list Z)
  : result (list Z) :=
  match ls with
  | [] => OK input
  | l :: ls' => s ← layer_output_shape l input; stack_output_shape ls' s
  end.

Definition network_output_shape (m : network) : result (list Z) :=
  match network_input_shape m with
  | Some input => stack_output_shape (layers m) input
  | None => Raise ValueError
  end.

(** * More definitions used to state the properties *)

(** Decoding a code: the token at that position of the sorted list of
    the distinct tokens. *)
Definition int_to_pitch (notes : list string) (code : nat) : option string :=
  pitch_names notes !! code.

(** A token is smaller than another one. *)
Definition token_lt (s t : string) : Prop := String.le s t ∧ s ≠ t.

Global Instance token_lt_dec (s t : string) : Decision (token_lt s t).
Proof. unfold token_lt. apply _. Defined.

(** The elements of a stream the loop of lines 56-62 keeps. *)
Definition is_event (s : structure) : bool :=
  match s with
  | Note _ | Chord _ => true
  | OtherElement => false
  end.

(** [s.split(sep)] for a separator of one character *)
Fixpoint py_split (sep : ascii) (s : string) : list string :=
  match s with
  | EmptyString => [EmptyString]
  | String c s' =>
      if Ascii.eqb c sep then EmptyString :: py_split sep s'
      else match py_split sep s' with
           | [] => [String c EmptyString]
           | word :: words => String c word :: words
           end
  end.

(** [int(s)] on the decimal text of an integer *)
Definition py_int (s : string) : result Z :=
  match NilZero.int_of_string s with
  | Some d => OK (Z.of_int d)
  | None => Raise ValueError
  end.

(** Reading a chord token back: [[int(n) for n in token.split('.')]]. *)
Definition chord_of_token (token : string) : result (list Z) :=
  rmap py_int (py_split "." token).

(** The line [get_notes] prints for a file. *)
Definition progress_line (file : string) : string := "Parsing file " +:+ file.

(** A text without the character ["."]. *)
Fixpoint dotless (s : string) : bool :=
  match s with
  | EmptyString => true
  | String c s' => negb (Ascii.eqb c ".") && dotless s'
  end.

(** * Properties *)

(** ** The vocabulary *)

Lemma enumerate_snoc {A} (xs : list A) (x : A) :
  enumerate (xs ++ [x]) = enumerate xs ++ [(length xs, x)].
Proof.
  unfold enumerate. rewrite imap_app. simpl. by rewrite Nat.add_0_r.
Qed.

Lemma dict_of_snoc (xs : list string) (x : string) :
  dict_of (enumerate (xs ++ [x])) = <[x := length xs]> (dict_of (enumerate xs)).
Proof.
  rewrite enumerate_snoc. unfold dict_of. by rewrite foldl_app.
Qed.

(** On a list without duplicates the dictionary is the inverse of
    indexing. *)
Lemma dict_of_lookup (xs : list string) (t : string) (k : nat) :
  NoDup xs → dict_of (enumerate xs) !! t = Some k ↔ xs !! k = Some t.
Proof.
  revert k. induction xs as [|x xs IH] using rev_ind; intros k Hnd.
  - unfold dict_of. simpl. rewrite lookup_empty. by rewrite lookup_nil.
  - apply NoDup_app in Hnd as (Hxs & Hx & _).
    rewrite dict_of_snoc. destruct (decide (x = t)) as [->|Hne].
    + rewrite lookup_insert_eq. split.
      * intros [= <-]. by rewrite list_lookup_middle.
      * intros Hk. destruct (decide (k < length xs)) as [Hlt|Hge].
        -- rewrite lookup_app_l in Hk by done.
           exfalso. apply (Hx t); [by eapply list_elem_of_lookup_2|apply list_elem_of_here].
        -- apply lookup_lt_Some in Hk as Hlen. rewrite length_app in Hlen.
           simpl in Hlen. f_equal. lia.
    + rewrite lookup_insert_ne by done. rewrite IH by done. split.
      * intros Hk. by apply lookup_app_l_Some.
      * intros Hk. apply lookup_app_Some in Hk as [Hk|[_ Hk]]; [done|].
        apply list_lookup_singleton_Some in Hk as [_ ?]. congruence.
Qed.

Lemma pitch_names_perm (notes : list string) :
  pitch_names notes ≡ₚ elements (py_set notes).
Proof. apply merge_sort_Permutation. Qed.

Lemma pitch_names_NoDup (notes : list string) : NoDup (pitch_names notes).
Proof. rewrite pitch_names_perm. apply NoDup_elements. Qed.

Lemma elem_of_pitch_names (notes : list string) (t : string) :
  t ∈ pitch_names notes ↔ t ∈ notes.
Proof.
  rewrite pitch_names_perm, elem_of_elements. unfold py_set.
  by rewrite elem_of_list_to_set.
Qed.

Lemma pitch_names_sorted (notes : list string) :
  StronglySorted String.le (pitch_names notes).
Proof. apply (StronglySorted_merge_sort _). Qed.

Lemma pitch_names_length (notes : list string) :
  length (pitch_names notes) = size (py_set notes).
Proof. by rewrite pitch_names_perm. Qed.

Lemma pitch_to_int_lookup (notes : list string) (t : string) (k : nat) :
  pitch_to_int notes !! t = Some k ↔ pitch_names notes !! k = Some t.
Proof. apply dict_of_lookup, pitch_names_NoDup. Qed.

(** Every token of the corpus has a code. *)
Lemma pitch_to_int_total (notes : list string) (t : string) :
  t ∈ notes → ∃ k, pitch_to_int notes !! t = Some k ∧ k < size (py_set notes).
Proof.
  intros Ht. apply elem_of_pitch_names, list_elem_of_lookup in Ht as [k Hk].
  exists k. split; [by apply pitch_to_int_lookup|].
  rewrite <- pitch_names_length. by eapply lookup_lt_Some.
Qed.

Lemma StronglySorted_lookup_lt {A} (R : relation A) (xs : list A)
    (i j : nat) (a b : A) :
  StronglySorted R xs → xs !! i = Some a → xs !! j = Some b → i < j → R a b.
Proof.
  intros Hs Hi Hj Hlt. rewrite <- (take_drop j xs) in Hs.
  eapply StronglySorted_app_1_elem_of; [exact Hs| |].
  - apply list_elem_of_lookup. exists i. by rewrite lookup_take_lt.
  - apply list_elem_of_lookup. exists 0. by rewrite lookup_drop, Nat.add_0_r.
Qed.

(** In a sorted list without duplicates the positions follow the order of
    the elements. *)
Lemma sorted_positions (xs : list string) (i j : nat) (a b : string) :
  StronglySorted String.le xs → NoDup xs →
  xs !! i = Some a → xs !! j = Some b →
  i < j ↔ String.le a b ∧ a ≠ b.
Proof.
  intros Hs Hnd Hi Hj.
  assert (Hmono : ∀ i j a b, xs !! i = Some a → xs !! j = Some b →
                             i < j → String.le a b ∧ a ≠ b).
  { clear i j a b Hi Hj. intros i j a b Hi Hj Hlt. split.
    - by eapply (StronglySorted_lookup_lt String.le xs i j).
    - intros ->. assert (i = j) by (eapply NoDup_lookup; eauto). lia. }
  split; [by eapply Hmono|]. intros [Hle Hne].
  destruct (decide (i < j)) as [|Hge]; [done|]. exfalso.
  destruct (decide (i = j)) as [->|Hij]; [congruence|].
  destruct (Hmono j i b a Hj Hi ltac:(lia)) as [Hle' _].
  apply Hne. by apply (anti_symm String.le).
Qed.

(** ** The training examples *)

Lemma code_of_Some (d : gmap string nat) (t : string) :
  is_Some (d !! t) → d !! t = Some (code_of d t).
Proof. intros [k Hk]. unfold code_of. by rewrite Hk. Qed.

Lemma dict_getitem_ok (d : gmap string nat) (t : string) :
  is_Some (d !! t) → dict_getitem d t = OK (code_of d t).
Proof. intros Ht. unfold dict_getitem. by rewrite (code_of_Some d t Ht). Qed.

Lemma rmap_dict_getitem (d : gmap string nat) (ts : list string) :
  (∀ t, t ∈ ts → is_Some (d !! t)) →
  rmap (dict_getitem d) ts = OK (map (code_of d) ts).
Proof.
  induction ts as [|t ts IH]; intros Hts; [done|]. simpl.
  rewrite dict_getitem_ok by (apply Hts; set_solver). simpl.
  rewrite IH by (intros; apply Hts; set_solver). done.
Qed.

Lemma encode_at_ok (W : nat) (notes : list string) (d : gmap string nat)
    (i : nat) :
  (∀ t, t ∈ notes → is_Some (d !! t)) → i + W < length notes →
  encode_at W notes d i = OK (window_codes W notes d i, target_code W notes d i).
Proof.
  intros Hd Hi. unfold encode_at, list_getitem, list_slice.
  destruct (lookup_lt_is_Some_2 notes (i + W) Hi) as [t Ht].
  rewrite Ht. simpl. replace (i + W - i) with W by lia.
  rewrite rmap_dict_getitem; simpl.
  - rewrite dict_getitem_ok by (eapply Hd, list_elem_of_lookup_2, Ht).
    simpl. unfold target_code. by rewrite Ht.
  - intros t' Ht'. by apply Hd, (subseteq_drop i), (subseteq_take W).
Qed.

Lemma encode_loop_ok (W : nat) (notes : list string) (d : gmap string nat)
    (range : list nat) (ins : list (list nat)) (outs : list nat) :
  (∀ t, t ∈ notes → is_Some (d !! t)) →
  Forall (λ i, i + W < length notes) range →
  encode_loop W notes d range ins outs =
    OK (ins ++ map (window_codes W notes d) range,
        outs ++ map (target_code W notes d) range).
Proof.
  intros Hd Hr. revert ins outs.
  induction Hr as [|i range Hi Hr IH]; intros ins outs; simpl.
  - by rewrite !app_nil_r.
  - rewrite encode_at_ok by done. simpl. rewrite IH.
    by rewrite <- !app_assoc.
Qed.

Lemma pitch_to_int_is_Some (notes : list string) (t : string) :
  t ∈ notes → is_Some (pitch_to_int notes !! t).
Proof. intros Ht. destruct (pitch_to_int_total notes t Ht) as (k & -> & _). eauto. Qed.

(** The loop builds one example per offset, whatever the corpus and the
    window length. *)
Lemma training_examples_ok (W : nat) (notes : list string) :
  training_examples W notes =
    OK (map (window_codes W notes (pitch_to_int notes)) (seq 0 (length notes - W)),
        map (target_code W notes (pitch_to_int notes)) (seq 0 (length notes - W))).
Proof.
  unfold training_examples, py_range. rewrite encode_loop_ok; [done| |].
  - apply pitch_to_int_is_Some.
  - apply Forall_forall. intros i Hi%elem_of_seq. lia.
Qed.

Lemma length_window_codes (W : nat) (notes : list string)
    (d : gmap string nat) (i : nat) :
  i + W ≤ length notes → length (window_codes W notes d i) = W.
Proof.
  intros Hi. unfold window_codes.
  rewrite length_map, length_take, length_drop. lia.
Qed.

(** ** The tensors *)

Lemma length_concat_uniform {A} (rows : list (list A)) (w : nat) :
  Forall (λ r, length r = w) rows → length (concat rows) = length rows * w.
Proof.
  induction 1 as [|r rows Hr _ IH]; [done|].
  simpl. rewrite length_app, IH, Hr. done.
Qed.

(** Windows of one length always reshape, also when there is none. *)
Lemma np_reshape_ok (rows : list (list nat)) (w : nat) :
  Forall (λ r, length r = w) rows →
  np_reshape rows [length rows; w; 1] =
    OK (Ndarray [length rows; w; 1] (concat rows)).
Proof.
  intros Hrows. unfold np_reshape, np_asarray.
  destruct rows as [|r rows]; [done|].
  assert (Hr : length r = w) by (by inversion Hrows).
  rewrite decide_True.
  2:{ eapply Forall_impl; [exact Hrows|]. simpl. intros; congruence. }
  simpl. unfold ndarray_reshape. simpl.
  rewrite decide_True; [done|].
  change (r ++ concat rows) with (concat (r :: rows)).
  rewrite (length_concat_uniform _ w Hrows). simpl. lia.
Qed.

Lemma windows_uniform (W : nat) (notes : list string) (d : gmap string nat) :
  Forall (λ r, length r = W)
    (map (window_codes W notes d) (seq 0 (length notes - W))).
Proof.
  apply Forall_forall. intros r Hr.
  apply list_elem_of_fmap in Hr as (i & -> & Hi%elem_of_seq).
  apply length_window_codes. lia.
Qed.

(** The function without its loop: everything but the one-hot encoding
    always succeeds. *)
Lemma prepare_sequences_with_eq (W : nat) (notes : list string) (n : Z) :
  let d := pitch_to_int notes in
  let N := length notes - W in
  prepare_sequences_with W notes n =
    (y ← to_categorical (map (target_code W notes d) (seq 0 N));
     OK (Ndarray [N; W; 1]
           (map (λ x, true_divide x (py_float n))
              (concat (map (window_codes W notes d) (seq 0 N)))), y)).
Proof.
  intros d N. unfold prepare_sequences_with.
  rewrite training_examples_ok. simpl.
  pose proof (np_reshape_ok _ W (windows_uniform W notes d)) as Hre.
  rewrite length_map, length_seq in Hre. fold d N in Hre.
  rewrite length_map, length_seq. fold d N. rewrite Hre. done.
Qed.

Lemma size_py_set (notes : list string) :
  size (py_set notes) = length (remove_dups notes).
Proof.
  unfold py_set.
  rewrite <- (size_list_to_set (C := gset string) (remove_dups notes))
    by apply NoDup_remove_dups.
  f_equal. apply set_eq. intros t.
  by rewrite !elem_of_list_to_set, elem_of_remove_dups.
Qed.

Lemma dom_pitch_to_int (notes : list string) :
  dom (pitch_to_int notes) = py_set notes.
Proof.
  apply set_eq. intros t. rewrite elem_of_dom. unfold py_set.
  rewrite elem_of_list_to_set. split.
  - intros [k Hk%pitch_to_int_lookup].
    by eapply elem_of_pitch_names, list_elem_of_lookup_2.
  - apply pitch_to_int_is_Some.
Qed.

(** C2. The vocabulary of [prepare_sequences] is a bijection between the
    distinct tokens of the corpus and the codes [0..V-1], where [V] is the
    number of distinct tokens: the code of a token is its position in the
    list of the distinct tokens in ascending lexicographic order, so every
    token of the corpus has one code, every code below [V] belongs to one
    token, two tokens never share a code, and a smaller token has a
    smaller code. *)
Theorem vocabulary_bijection (C : list string) :
  let V := length (remove_dups C) in
  pitch_names C ≡ₚ remove_dups C ∧
  StronglySorted String.le (pitch_names C) ∧
  NoDup (pitch_names C) ∧
  length (pitch_names C) = V ∧
  size (pitch_to_int C) = V ∧
  (∀ t k, pitch_to_int C !! t = Some k ↔ pitch_names C !! k = Some t) ∧
  (∀ t, t ∈ C ↔ ∃ k, pitch_to_int C !! t = Some k) ∧
  (∀ k, k < V ↔ ∃ t, pitch_to_int C !! t = Some k) ∧
  (∀ t1 t2 k, pitch_to_int C !! t1 = Some k →
              pitch_to_int C !! t2 = Some k → t1 = t2) ∧
  (∀ t1 t2 k1 k2, pitch_to_int C !! t1 = Some k1 →
                  pitch_to_int C !! t2 = Some k2 →
                  k1 < k2 ↔ String.le t1 t2 ∧ t1 ≠ t2).
Proof.
  intros V. unfold V. rewrite <- size_py_set.
  split_and!.
  - rewrite pitch_names_perm. unfold py_set.
    rewrite <- (elements_list_to_set (C := gset string) (remove_dups C))
      by apply NoDup_remove_dups.
    f_equiv. intros t.
    by rewrite !elem_of_list_to_set, elem_of_remove_dups.
  - apply pitch_names_sorted.
  - apply pitch_names_NoDup.
  - apply pitch_names_length.
  - by rewrite <- size_dom, dom_pitch_to_int.
  - apply pitch_to_int_lookup.
  - intros t. split.
    + intros Ht. destruct (pitch_to_int_total C t Ht) as (k & Hk & _). eauto.
    + intros [k Hk%pitch_to_int_lookup].
      by eapply elem_of_pitch_names, list_elem_of_lookup_2.
  - intros k. rewrite <- pitch_names_length. split.
    + intros [t Ht]%lookup_lt_is_Some_2. exists t. by apply pitch_to_int_lookup.
    + intros [t Ht%pitch_to_int_lookup]. by eapply lookup_lt_Some.
  - intros t1 t2 k H1%pitch_to_int_lookup H2%pitch_to_int_lookup. congruence.
  - intros t1 t2 k1 k2 H1%pitch_to_int_lookup H2%pitch_to_int_lookup.
    eapply sorted_positions; eauto using pitch_names_sorted, pitch_names_NoDup.
Qed.

(** ** Rows and entries of a buffer of rows of one length *)




(** ** One-hot rows *)





Lemma to_categorical_ok (y : list nat) :
  y ≠ [] →
  to_categorical y =
    OK (Ndarray [length y; max_list y + 1]
          (concat (map (one_hot (max_list y + 1)) y))).
Proof. by destruct y. Qed.


(** ** The examples, token by token *)

Lemma window_codes_Forall2 (W : nat) (notes : list string) (i : nat) :
  Forall2 (λ t k, pitch_to_int notes !! t = Some k)
    (take W (drop i notes)) (window_codes W notes (pitch_to_int notes) i).
Proof.
  unfold window_codes. apply Forall2_fmap_r, Forall_Forall2_diag, Forall_forall.
  intros t Ht. apply code_of_Some, pitch_to_int_is_Some.
  by apply (subseteq_drop i), (subseteq_take W).
Qed.


Lemma target_code_lookup (W : nat) (notes : list string) (i : nat) (t : string) :
  notes !! (i + W) = Some t →
  pitch_to_int notes !! t = Some (target_code W notes (pitch_to_int notes) i).
Proof.
  intros Ht. unfold target_code. rewrite Ht. simpl.
  apply code_of_Some, pitch_to_int_is_Some. by eapply list_elem_of_lookup_2.
Qed.

(** C1. For a corpus [C] of more than 100 tokens, [prepare_sequences]
    builds exactly [len(C) - 100] training examples; for every offset [i]
    below that number, the input window of example [i] is the list of the
    vocabulary codes of [C[i], ..., C[i+99]], in order, and its target is
    the vocabulary code of [C[i+100]]. The tensors returned are made of
    these examples, in this order. *)
Theorem prepare_sequences_examples (C : list string) (n : Z) :
  100 < length C →
  ∃ ins outs X Y,
    training_examples sequence_length C = OK (ins, outs) ∧
    length ins = length C - 100 ∧
    length outs = length C - 100 ∧
    (∀ i, i < length C - 100 →
       ∃ window target t,
         ins !! i = Some window ∧ outs !! i = Some target ∧
         length window = 100 ∧
         Forall2 (λ t k, pitch_to_int C !! t = Some k)
           (take 100 (drop i C)) window ∧
         C !! (i + 100) = Some t ∧ pitch_to_int C !! t = Some target) ∧
    prepare_sequences C n = OK (X, Y) ∧
    X = ndarray_divide (Ndarray [length ins; 100; 1] (concat ins)) (py_float n) ∧
    to_categorical outs = OK Y.
Proof.
  intros Hlen. set (d := pitch_to_int C). set (N := length C - 100).
  set (ins := map (window_codes 100 C d) (seq 0 N)).
  set (outs := map (target_code 100 C d) (seq 0 N)).
  assert (Houts : outs ≠ []).
  { intros Hnil%(f_equal length). unfold outs in Hnil.
    rewrite length_map, length_seq in Hnil. simpl in Hnil. lia. }
  exists ins, outs.
  exists (ndarray_divide (Ndarray [length ins; 100; 1] (concat ins)) (py_float n)).
  exists (Ndarray [length outs; max_list outs + 1]
            (concat (map (one_hot (max_list outs + 1)) outs))).
  split_and!.
  - apply training_examples_ok.
  - unfold ins. by rewrite length_map, length_seq.
  - unfold outs. by rewrite length_map, length_seq.
  - intros i Hi.
    destruct (lookup_lt_is_Some_2 C (i + 100)) as [t Ht]; [lia|].
    exists (window_codes 100 C d i), (target_code 100 C d i), t.
    split_and!.
    + unfold ins. by rewrite list_lookup_fmap, lookup_seq_lt.
    + unfold outs. by rewrite list_lookup_fmap, lookup_seq_lt.
    + apply length_window_codes. lia.
    + apply window_codes_Forall2.
    + done.
    + by apply target_code_lookup.
  - unfold prepare_sequences. rewrite prepare_sequences_with_eq.
    fold d N outs ins. unfold sequence_length.
    rewrite to_categorical_ok by done. simpl.
    unfold ndarray_divide, ins, outs, N, d. simpl.
    by rewrite !length_map, !length_seq.
  - done.
  - by apply to_categorical_ok.
Qed.

Lemma prepare_sequences_examples_witness :
  100 < length corpus101 ∧
  ∃ ins outs, training_examples sequence_length corpus101 = OK (ins, outs)
              ∧ length ins = 1.
Proof.
  assert (H : 100 < length corpus101) by (vm_compute; lia).
  split; [exact H|].
  destruct (prepare_sequences_examples corpus101 2 H)
    as (ins & outs & _ & _ & Hex & Hlen & _).
  exists ins, outs. split; [exact Hex|exact Hlen].
Defined.

(** C3. On a corpus of at most 100 tokens (the empty one included) and
    for every class count, the loop of [prepare_sequences] builds no
    example and the input windows reshape to a well-formed empty array of
    shape [(0, 100, 1)]; the one-hot encoding of the empty list of targets
    then raises [ValueError], so that the call raises where the
    specification asks for empty tensors. *)
Theorem prepare_sequences_short_corpus (C : list string) (n : Z) :
  length C ≤ 100 →
  training_examples sequence_length C = OK ([], []) ∧
  np_reshape [] [0; sequence_length; 1] = OK (Ndarray [0; 100; 1] []) ∧
  to_categorical [] = Raise ValueError ∧
  prepare_sequences C n = Raise ValueError.
Proof.
  intros Hlen. unfold prepare_sequences.
  rewrite prepare_sequences_with_eq, training_examples_ok.
  unfold sequence_length.
  replace (length C - 100) with 0 by lia. done.
Qed.

Lemma prepare_sequences_short_corpus_witness :
  length scenario ≤ 100 ∧ prepare_sequences scenario 3 = Raise ValueError.
Proof.
  assert (H : length scenario ≤ 100) by (vm_compute; lia).
  split; [exact H|]. apply (prepare_sequences_short_corpus scenario 3 H).
Defined.


(** ** The target tensor *)





(** ** The input tensor *)







(** ** get_notes *)

Lemma append_tokens_app (notes : list string) (stream : list structure) :
  append_tokens notes stream = notes ++ omap token_of stream.
Proof.
  revert notes. induction stream as [|s stream IH]; intros notes; simpl.
  - by rewrite app_nil_r.
  - destruct (token_of s) as [token|]; rewrite IH; [|done].
    by rewrite <- app_assoc.
Qed.

(** When every file parses, the loop returns the corpus and writes no
    file. *)
Lemma parse_files_ok (E : collaborators) (paths : list string)
    (notes : list string) (w : world) :
  Forall (λ f, ∃ s, converter_parse E f = OK s) paths →
  parse_files E paths notes w =
    (OK (notes ++ corpus_of E paths),
     World (files w) (stdout w ++ map (λ f, "Parsing file " +:+ f) paths)).
Proof.
  intros Hok. revert notes w.
  induction Hok as [|file paths [s Hs] _ IH]; intros notes w; simpl.
  - unfold corpus_of. simpl. rewrite !app_nil_r. by destruct w.
  - unfold mbind, io_bind, print, io_lift. simpl. rewrite Hs.
    change (parse_files E paths ?n ?w) with (parse_files E paths n w).
    rewrite IH. simpl. unfold corpus_of. simpl. unfold tokens_of_file at 2.
    rewrite Hs, append_tokens_app. by rewrite <- !app_assoc.
Qed.

(** The first file that does not parse stops the loop with its
    exception, and no file has been written. *)
Lemma parse_files_raise (E : collaborators) (pre post : list string)
    (file : string) (e : exn) (notes : list string) (w : world) :
  Forall (λ f, ∃ s, converter_parse E f = OK s) pre →
  converter_parse E file = Raise e →
  ∃ w', parse_files E (pre ++ file :: post) notes w = (Raise e, w') ∧
        files w' = files w.
Proof.
  intros Hok He. revert notes w.
  induction Hok as [|f pre [s Hs] _ IH]; intros notes w; simpl.
  - unfold mbind, io_bind, print, io_lift. simpl. rewrite He. eauto.
  - unfold mbind, io_bind, print, io_lift. simpl. rewrite Hs.
    destruct (IH (append_tokens notes (notes_by_instrument s))
                (World (files w) (stdout w ++ ["Parsing file " +:+ f])))
      as (w' & Hw' & Hf).
    exists w'. split; [exact Hw'|exact Hf].
Qed.

(** Among files of which one does not parse, there is a first one. *)
Lemma first_parse_failure (E : collaborators) (paths : list string)
    (file : string) (e : exn) :
  file ∈ paths → converter_parse E file = Raise e →
  ∃ pre file' post e',
    paths = pre ++ file' :: post ∧
    Forall (λ f, ∃ s, converter_parse E f = OK s) pre ∧
    converter_parse E file' = Raise e'.
Proof.
  intros Hin He. induction paths as [|f paths IH]; [by apply elem_of_nil in Hin|].
  destruct (converter_parse E f) as [s|e'] eqn:Hf.
  - apply elem_of_cons in Hin as [->|Hin]; [congruence|].
    destruct (IH Hin) as (pre & file' & post & e' & -> & Hpre & He').
    exists (f :: pre), file', post, e'. split_and!; [done| |done].
    constructor; eauto.
  - exists [], f, paths, e'. split_and!; [done|constructor|done].
Qed.

Lemma get_notes_ok (E : collaborators) (directory : string) (w : world) :
  Forall (λ f, ∃ s, converter_parse E f = OK s) (glob_glob E directory) →
  get_notes E directory w =
    (OK (corpus_of E (glob_glob E directory)),
     World (<["data/notes" := pickle_dumps E (corpus_of E (glob_glob E directory))]>
              (files w))
           (stdout w ++ map (λ f, "Parsing file " +:+ f) (glob_glob E directory))).
Proof.
  intros Hok. unfold get_notes, mbind, io_bind.
  rewrite (parse_files_ok E _ [] w Hok). done.
Qed.

(** C6. In [get_notes] a file that does not parse is not caught: its
    exception leaves [get_notes], whatever files come after it, and
    nothing has been persisted; whereas a failure of the instrument
    partitioning of a parsed file, whatever it is (an exception of
    [partitionByInstrument], its result [None], a result without parts),
    is recovered by taking the flattened note stream of the whole score,
    whose tokens are then the ones added to the corpus. *)
Theorem get_notes_failures (E : collaborators) :
  (∀ directory w pre file post e,
     glob_glob E directory = pre ++ file :: post →
     Forall (λ f, ∃ s, converter_parse E f = OK s) pre →
     converter_parse E file = Raise e →
     ∃ w', get_notes E directory w = (Raise e, w') ∧ files w' = files w) ∧
  (∀ directory w file e,
     file ∈ glob_glob E directory → converter_parse E file = Raise e →
     ∃ e' w', get_notes E directory w = (Raise e', w') ∧ files w' = files w) ∧
  (∀ parsed_midi,
     (∃ e, partitionByInstrument parsed_midi = Raise e) ∨
     partitionByInstrument parsed_midi = OK None ∨
     partitionByInstrument parsed_midi = OK (Some []) →
     (∃ e, first_part_stream parsed_midi = Raise e) ∧
     notes_by_instrument parsed_midi = flat_notes parsed_midi) ∧
  (∀ parsed_midi e file,
     first_part_stream parsed_midi = Raise e →
     converter_parse E file = OK parsed_midi →
     ∀ directory w, glob_glob E directory = [file] →
     ∃ w', get_notes E directory w =
             (OK (omap token_of (flat_notes parsed_midi)), w')).
Proof.
  split_and!.
  - intros directory w pre file post e Hglob Hpre He.
    unfold get_notes, mbind, io_bind. rewrite Hglob.
    destruct (parse_files_raise E pre post file e [] w Hpre He)
      as (w' & -> & Hf).
    eauto.
  - intros directory w file e Hin He.
    destruct (first_parse_failure E _ file e Hin He)
      as (pre & file' & post & e' & Hglob & Hpre & He').
    unfold get_notes, mbind, io_bind. rewrite Hglob.
    destruct (parse_files_raise E pre post file' e' [] w Hpre He')
      as (w' & -> & Hf).
    eauto.
  - intros parsed_midi H. unfold notes_by_instrument, first_part_stream.
    destruct H as [[e ->]|[->| ->]]; simpl; eauto.
  - intros parsed_midi e file Hfail Hparse directory w Hglob.
    rewrite get_notes_ok.
    + rewrite Hglob. unfold corpus_of. simpl. unfold tokens_of_file.
      rewrite Hparse. unfold notes_by_instrument. rewrite Hfail.
      rewrite app_nil_r. eauto.
    + rewrite Hglob. repeat constructor. eauto.
Qed.

Lemma get_notes_failures_witness :
  (∃ w', get_notes studio "broken/*.mid" blank
           = (Raise (LibraryError "MidiException"), w') ∧
         files w' = files blank) ∧
  notes_by_instrument monophonic = flat_notes monophonic.
Proof.
  destruct (get_notes_failures studio) as (Hparse & _ & Hpart & _). split.
  - apply (Hparse "broken/*.mid" blank ["midi/a.mid"] "broken/x.mid"
             ["midi/b.mid"]).
    + reflexivity.
    + repeat constructor. exists melody. reflexivity.
    + reflexivity.
  - apply Hpart. right. left. reflexivity.
Defined.





(** ** prepare_sequences on a store *)

Lemma fresh_lookup_None (h : store) : h !! fresh (dom h) = None.
Proof. apply not_elem_of_dom, is_fresh. Qed.

Lemma rmap_as_str (ts : list string) : rmap as_str (VStr <$> ts) = OK ts.
Proof. induction ts as [|t ts IH]; [done|]. csimpl. by rewrite IH. Qed.

Lemma rmap_as_int (xs : list nat) : rmap as_int (VInt <$> xs) = OK xs.
Proof. induction xs as [|x xs IH]; [done|]. csimpl. by rewrite IH. Qed.

Lemma rmap_codes (d : gmap string nat) (ts : list string) :
  (∀ t, t ∈ ts → is_Some (d !! t)) →
  rmap (λ v, pitch ← as_str v; dict_getitem d pitch) (VStr <$> ts) =
    OK (map (code_of d) ts).
Proof.
  induction ts as [|t ts IH]; intros Hts; [done|]. csimpl.
  rewrite dict_getitem_ok by (apply Hts; apply list_elem_of_here). csimpl.
  rewrite IH; [done|]. intros t' Ht'. apply Hts. by apply list_elem_of_further.
Qed.

Lemma list_slice_fmap {A B} (f : A → B) (xs : list A) (i j : nat) :
  list_slice (f <$> xs) i j = f <$> list_slice xs i j.
Proof. unfold list_slice. by rewrite fmap_take, fmap_drop. Qed.

Lemma st_bind_ok {A B} (m : st A) (k : A → st B) (h h' : store) (a : A) :
  m h = (OK a, h') → (m ≫= k) h = k a h'.
Proof. intros Hm. unfold mbind, st_bind. by rewrite Hm. Qed.

Lemma read_list_ok (l : loc) (xs : list pyval) (h : store) :
  h !! l = Some xs → read_list l h = (OK xs, h).
Proof. intros Hl. unfold read_list. by rewrite Hl. Qed.

Lemma list_append_ok (l : loc) (v : pyval) (xs : list pyval) (h : store) :
  h !! l = Some xs → list_append l v h = (OK (), <[l := xs ++ [v]]> h).
Proof. intros Hl. unfold list_append. by rewrite Hl. Qed.

Lemma getslice_ok (l : loc) (i j : nat) (xs : list pyval) (h : store) :
  h !! l = Some xs →
  getslice l i j h =
    (OK (fresh (dom h)), <[fresh (dom h) := list_slice xs i j]> h).
Proof.
  intros Hl. unfold getslice.
  by rewrite (st_bind_ok _ _ h h xs (read_list_ok l xs h Hl)).
Qed.

Lemma getitem_ok (l : loc) (i : nat) (xs : list pyval) (v : pyval) (h : store) :
  h !! l = Some xs → xs !! i = Some v → getitem l i h = (OK v, h).
Proof.
  intros Hl Hi. unfold getitem.
  rewrite (st_bind_ok _ _ h h xs (read_list_ok l xs h Hl)).
  unfold st_lift, list_getitem. by rewrite Hi.
Qed.

Lemma comprehension_ok (d : gmap string nat) (l : loc) (ts : list string)
    (h : store) :
  h !! l = Some (VStr <$> ts) → (∀ t, t ∈ ts → is_Some (d !! t)) →
  comprehension d l h =
    (OK (fresh (dom h)), <[fresh (dom h) := VInt <$> map (code_of d) ts]> h).
Proof.
  intros Hl Hd. unfold comprehension.
  rewrite (st_bind_ok _ _ h h _ (read_list_ok l _ h Hl)).
  rewrite (st_bind_ok _ _ h h (map (code_of d) ts)); [done|].
  unfold st_lift. by rewrite rmap_codes.
Qed.

Lemma rows_insert (h : store) (l : loc) (xs : list pyval) (rls : list loc)
    (rows : list (list nat)) :
  l ∉ rls →
  Forall2 (λ rl r, h !! rl = Some (VInt <$> r)) rls rows →
  Forall2 (λ rl r, <[l := xs]> h !! rl = Some (VInt <$> r)) rls rows.
Proof.
  intros Hl Hrows. induction Hrows as [|rl r rls rows Hrl _ IH]; [constructor|].
  apply not_elem_of_cons in Hl as [Hne Hl].
  constructor; [by rewrite lookup_insert_ne|by apply IH].
Qed.

Lemma rows_not_elem_of (h : store) (l : loc) (rls : list loc)
    (rows : list (list nat)) :
  h !! l = None →
  Forall2 (λ rl r, h !! rl = Some (VInt <$> r)) rls rows → l ∉ rls.
Proof.
  intros Hl Hrows. induction Hrows as [|rl r rls rows Hrl _ IH].
  - apply not_elem_of_nil.
  - apply not_elem_of_cons. split; [congruence|done].
Qed.

Section store_loop.
Context (W : nat) (C : list string) (d : gmap string nat).
Context (h0 : store) (notes li lo : loc).
Hypothesis Hnotes : h0 !! notes = Some (VStr <$> C).
Hypothesis Hd : ∀ t, t ∈ C → is_Some (d !! t).

Lemma store_encode_at_ok (i : nat) (rls : list loc) (rows : list (list nat))
    (outs : list nat) (h : store) :
  i + W < length C →
  loop_inv h0 li lo rls rows outs h →
  ∃ h' l,
    store_encode_at W notes d li lo i h = (OK (), h') ∧
    loop_inv h0 li lo (rls ++ [l]) (rows ++ [window_codes W C d i])
      (outs ++ [target_code W C d i]) h'.
Proof.
  intros Hi [Hfr Hins Houts Hrows Hne Hli0 Hlo0 Hli Hlo].
  assert (Hn : h !! notes = Some (VStr <$> C)).
  { by eapply lookup_weaken. }
  set (l1 := fresh (dom h)).
  set (h1 := <[l1 := VStr <$> list_slice C i (i + W)]> h).
  set (l2 := fresh (dom h1)).
  set (h2 := <[l2 := VInt <$> window_codes W C d i]> h1).
  assert (Hl1 : h !! l1 = None) by apply fresh_lookup_None.
  assert (Hl2 : h1 !! l2 = None) by apply fresh_lookup_None.
  assert (Hl21 : l2 ≠ l1).
  { intros Heq. rewrite Heq in Hl2. unfold h1 in Hl2.
    by rewrite lookup_insert_eq in Hl2. }
  assert (Hl2h : h !! l2 = None).
  { unfold h1 in Hl2. by rewrite lookup_insert_ne in Hl2. }
  assert (Hfresh : ∀ l xs, h !! l = Some xs → l ≠ l1 ∧ l ≠ l2).
  { intros l xs Hl. split; intros ->; congruence. }
  destruct (Hfresh _ _ Hn) as [Hn1 Hn2].
  destruct (Hfresh _ _ Hins) as [Hi1 Hi2].
  destruct (Hfresh _ _ Houts) as [Ho1 Ho2].
  destruct (lookup_lt_is_Some_2 C (i + W) Hi) as [t Ht].
  assert (Hwin : window_codes W C d i = map (code_of d) (list_slice C i (i + W))).
  { unfold window_codes, list_slice. do 3 f_equal. lia. }
  exists (<[lo := VInt <$> (outs ++ [target_code W C d i])]>
            (<[li := VRef <$> (rls ++ [l2])]> h2)), l2.
  split.
  - unfold store_encode_at.
    rewrite (st_bind_ok _ _ h h1 l1).
    2:{ unfold h1. rewrite <- list_slice_fmap. by apply getslice_ok. }
    rewrite (st_bind_ok _ _ h1 h1 (VStr t)).
    2:{ apply (getitem_ok _ _ (VStr <$> C)).
        - unfold h1. by rewrite lookup_insert_ne.
        - by rewrite list_lookup_fmap, Ht. }
    rewrite (st_bind_ok _ _ h1 h2 l2).
    2:{ unfold h2. rewrite Hwin. apply comprehension_ok.
        - unfold h1. by rewrite lookup_insert_eq.
        - intros t' Ht'. unfold list_slice in Ht'.
          by apply Hd, (subseteq_drop i), (subseteq_take (i + W - i)). }
    rewrite (st_bind_ok _ _ h2 (<[li := VRef <$> (rls ++ [l2])]> h2) ()).
    2:{ rewrite fmap_app. apply list_append_ok.
        unfold h2, h1. by rewrite !lookup_insert_ne. }
    rewrite (st_bind_ok _ _ _ (<[li := VRef <$> (rls ++ [l2])]> h2)
               (target_code W C d i)).
    2:{ unfold st_lift. simpl.
        rewrite dict_getitem_ok by (eapply Hd, list_elem_of_lookup_2, Ht).
        unfold target_code. by rewrite Ht. }
    rewrite (fmap_app VInt). apply list_append_ok.
    rewrite lookup_insert_ne by done.
    unfold h2, h1. by rewrite !lookup_insert_ne.
  - split.
    + apply insert_subseteq_r; [done|]. apply insert_subseteq_r; [done|].
      apply insert_subseteq_r; [by eapply lookup_weaken_None|].
      apply insert_subseteq_r; [by eapply lookup_weaken_None|]. done.
    + rewrite lookup_insert_ne by done. by rewrite lookup_insert_eq.
    + by rewrite lookup_insert_eq.
    + apply Forall2_app.
      * pose proof (rows_not_elem_of h l1 rls rows Hl1 Hrows) as Hr1.
        pose proof (rows_not_elem_of h l2 rls rows Hl2h Hrows) as Hr2.
        unfold h2, h1. by do 4 (apply rows_insert; [done|]).
      * constructor; [|constructor].
        rewrite !lookup_insert_ne by done. unfold h2.
        by rewrite lookup_insert_eq.
    + done.
    + done.
    + done.
    + rewrite not_elem_of_app. split; [done|].
      rewrite list_elem_of_singleton. done.
    + rewrite not_elem_of_app. split; [done|].
      rewrite list_elem_of_singleton. done.
Qed.

Lemma store_encode_loop_ok (range : list nat) (rls : list loc)
    (rows : list (list nat)) (outs : list nat) (h : store) :
  Forall (λ i, i + W < length C) range →
  loop_inv h0 li lo rls rows outs h →
  ∃ h' rls',
    store_encode_loop W notes d li lo range h = (OK (), h') ∧
    loop_inv h0 li lo rls' (rows ++ map (window_codes W C d) range)
      (outs ++ map (target_code W C d) range) h'.
Proof.
  intros Hrange. revert rls rows outs h.
  induction Hrange as [|i range Hi _ IH]; intros rls rows outs h Hinv; simpl.
  - exists h, rls. by rewrite !app_nil_r.
  - destruct (store_encode_at_ok i rls rows outs h Hi Hinv)
      as (h1 & l & Hat & Hinv1).
    destruct (IH _ _ _ _ Hinv1) as (h' & rls' & Hloop & Hinv').
    exists h', rls'. split.
    + unfold mbind, st_bind. rewrite Hat. exact Hloop.
    + by rewrite <- !app_assoc in Hinv'.
Qed.

End store_loop.

Lemma read_rows_ok (h : store) (rls : list loc) (rows : list (list nat)) :
  Forall2 (λ rl r, h !! rl = Some (VInt <$> r)) rls rows →
  read_rows (VRef <$> rls) h = (OK rows, h).
Proof.
  induction 1 as [|rl r rls rows Hrl _ IH]; [done|]. csimpl.
  rewrite (st_bind_ok _ _ h h rl) by done.
  rewrite (st_bind_ok _ _ h h _ (read_list_ok rl _ h Hrl)).
  rewrite (st_bind_ok _ _ h h r) by (unfold st_lift; by rewrite rmap_as_int).
  by rewrite (st_bind_ok _ _ h h rows IH).
Qed.

(** The function on a store computes what the function on lists computes,
    and leaves the objects of the store it was given as they were. *)
Lemma store_prepare_sequences_with_ok (W : nat) (h : store) (notes : loc)
    (C : list string) (n : Z) :
  h !! notes = Some (VStr <$> C) →
  ∃ h', store_prepare_sequences_with W notes n h
          = (prepare_sequences_with W C n, h') ∧
        h ⊆ h'.
Proof.
  intros Hnotes. unfold store_prepare_sequences_with.
  rewrite (st_bind_ok _ _ h h _ (read_list_ok notes _ h Hnotes)).
  rewrite (st_bind_ok _ _ h h C) by (unfold st_lift; by rewrite rmap_as_str).
  set (d := pitch_to_int C).
  set (li := fresh (dom h)). set (h1 := <[li := []]> h).
  set (lo := fresh (dom h1)). set (h2 := <[lo := []]> h1).
  rewrite (st_bind_ok _ _ h h1 li) by done.
  rewrite (st_bind_ok _ _ h1 h2 lo) by done.
  assert (Hli : h !! li = None) by apply fresh_lookup_None.
  assert (Hlo1 : h1 !! lo = None) by apply fresh_lookup_None.
  assert (Hne : li ≠ lo).
  { intros Heq. rewrite <- Heq in Hlo1. unfold h1 in Hlo1.
    by rewrite lookup_insert_eq in Hlo1. }
  assert (Hlo : h !! lo = None).
  { unfold h1 in Hlo1. by rewrite lookup_insert_ne in Hlo1. }
  assert (Hinv : loop_inv h li lo [] [] [] h2).
  { split; try done.
    - unfold h2, h1. by do 2 (apply insert_subseteq_r; [done|]).
    - unfold h2, h1. rewrite lookup_insert_ne by done.
      by rewrite lookup_insert_eq.
    - unfold h2. by rewrite lookup_insert_eq.
    - apply not_elem_of_nil.
    - apply not_elem_of_nil. }
  destruct (store_encode_loop_ok W C d h notes li lo Hnotes
              (pitch_to_int_is_Some C)
              (py_range (length (VStr <$> C)) W) [] [] [] h2)
    as (h' & rls & Hloop & Hinv'); [|done|].
  { apply Forall_forall. intros i Hi%elem_of_seq.
    rewrite length_fmap in Hi. lia. }
  simpl in Hinv'. destruct Hinv' as [Hfr Hins Houts Hrows _ _ _ _ _].
  exists h'. split; [|done].
  rewrite (st_bind_ok _ _ h2 h' () Hloop).
  rewrite (st_bind_ok _ _ h' h' _ (read_list_ok li _ h' Hins)).
  rewrite (st_bind_ok _ _ h' h' _ (read_rows_ok h' rls _ Hrows)).
  rewrite prepare_sequences_with_eq. cbv zeta. fold d.
  unfold py_range in Hrows, Houts. rewrite length_fmap in Hrows, Houts.
  apply Forall2_length in Hrows as Hlen.
  unfold py_range. rewrite !length_fmap, Hlen.
  rewrite (np_reshape_ok _ W (windows_uniform W C d)).
  erewrite st_bind_ok by reflexivity.
  rewrite (st_bind_ok _ _ h' h' _ (read_list_ok lo _ h' Houts)).
  rewrite (st_bind_ok _ _ h' h' _) by (unfold st_lift; by rewrite rmap_as_int).
  rewrite length_map, length_seq.
  destruct (to_categorical _) as [y|e]; done.
Qed.

(** C9. [prepare_sequences] only reads its corpus: when the list object
    passed as [notes] holds the tokens [C], the call computes what
    [prepare_sequences] computes on [C], whether it returns or raises, and
    afterwards that object holds the same tokens in the same order, as
    does every other object that existed before the call; the objects the
    call appends to are objects it has created. *)
Theorem prepare_sequences_reads_only (h : store) (notes : loc)
    (C : list string) (n : Z) :
  h !! notes = Some (VStr <$> C) →
  ∃ h',
    store_prepare_sequences notes n h = (prepare_sequences C n, h') ∧
    h' !! notes = Some (VStr <$> C) ∧
    (∀ l xs, h !! l = Some xs → h' !! l = Some xs).
Proof.
  intros Hnotes.
  destruct (store_prepare_sequences_with_ok sequence_length h notes C n Hnotes)
    as (h' & Hrun & Hframe).
  exists h'. split_and!.
  - exact Hrun.
  - by eapply lookup_weaken.
  - intros l xs Hl. by eapply lookup_weaken.
Qed.

Lemma prepare_sequences_reads_only_witness :
  ∃ h', store_prepare_sequences 1%positive 3
          {[ 1%positive := VStr <$> corpus101 ]}
          = (prepare_sequences corpus101 3, h') ∧
        h' !! 1%positive = Some (VStr <$> corpus101).
Proof.
  destruct (prepare_sequences_reads_only
              {[ 1%positive := VStr <$> corpus101 ]} 1%positive corpus101 3)
    as (h' & Hrun & Hnotes & _).
  - reflexivity.
  - exists h'. split; [exact Hrun|exact Hnotes].
Defined.

(** * Further properties of the code *)

(** ** The encoder: totality, windows, decoding *)



Lemma take_drop_S {A} (l : list A) (W i : nat) (x : A) :
  0 < W → l !! (i + W) = Some x →
  take W (drop (S i) l) = drop 1 (take W (drop i l)) ++ [x].
Proof.
  intros HW Hx.
  assert (Hlen : i + W < length l) by (by eapply lookup_lt_Some).
  replace (S i) with (i + 1) by lia.
  rewrite <- (drop_drop l 1 i), take_drop_commute.
  replace (1 + W) with (S W) by lia.
  rewrite (take_S_r _ W x) by (by rewrite lookup_drop).
  rewrite drop_app_le; [done|].
  rewrite length_take, length_drop. lia.
Qed.

(** X2. The windows slide by one token: whenever examples [i] and [i+1]
    both exist, the window of example [i+1] is the window of example [i]
    without its first code, followed by the target of example [i]. *)
Theorem windows_slide (W : nat) (C : list string) (ins : list (list nat))
    (outs : list nat) (i : nat) (w w' : list nat) (t : nat) :
  0 < W →
  training_examples W C = OK (ins, outs) →
  ins !! i = Some w → ins !! S i = Some w' → outs !! i = Some t →
  w' = drop 1 w ++ [t].
Proof.
  intros HW Hex Hw Hw' Ht. rewrite training_examples_ok in Hex.
  injection Hex as <- <-.
  apply lookup_lt_Some in Hw' as Hlen. rewrite length_map, length_seq in Hlen.
  rewrite list_lookup_fmap, lookup_seq_lt in Hw by lia.
  rewrite list_lookup_fmap, lookup_seq_lt in Hw' by lia.
  rewrite list_lookup_fmap, lookup_seq_lt in Ht by lia.
  simpl in Hw, Hw', Ht. injection Hw as <-. injection Hw' as <-.
  injection Ht as <-.
  destruct (lookup_lt_is_Some_2 C (i + W)) as [x Hx]; [lia|].
  unfold window_codes, target_code. rewrite Hx. simpl.
  rewrite (take_drop_S C W i x HW Hx).
  by rewrite map_app, <- !fmap_drop.
Qed.

Lemma windows_slide_witness :
  [1; 2] = drop 1 [0; 1] ++ [2].
Proof.
  apply (windows_slide 2 scenario [[0; 1]; [1; 2]] [2; 0] 0 [0; 1] [1; 2] 2);
    [lia|vm_compute; reflexivity|reflexivity|reflexivity|reflexivity].
Defined.

Lemma targets_are_codes (W : nat) (C : list string) (d : gmap string nat) :
  map (target_code W C d) (seq 0 (length C - W)) = map (code_of d) (drop W C).
Proof.
  apply list_eq. intros i. rewrite !list_lookup_fmap, lookup_drop.
  destruct (decide (i < length C - W)) as [Hi|Hi].
  - rewrite lookup_seq_lt by done. simpl. unfold target_code.
    rewrite (Nat.add_comm W i).
    destruct (lookup_lt_is_Some_2 C (i + W)) as [x ->]; [lia|]. done.
  - rewrite lookup_seq_ge by lia. rewrite lookup_ge_None_2 by lia. done.
Qed.

Lemma int_to_pitch_code (C : list string) (t : string) :
  t ∈ C → int_to_pitch C (code_of (pitch_to_int C) t) = Some t.
Proof.
  intros Ht. unfold int_to_pitch. apply pitch_to_int_lookup.
  by apply code_of_Some, pitch_to_int_is_Some.
Qed.

(** X3. Encoding loses nothing: for a corpus longer than the window,
    decoding the codes of the first window followed by all the targets,
    each code through the sorted list of the distinct tokens, gives back
    the corpus, token for token. *)
Theorem examples_decode (W : nat) (C : list string) (ins : list (list nat))
    (outs : list nat) :
  W < length C →
  training_examples W C = OK (ins, outs) →
  ∃ w, ins !! 0 = Some w ∧ mapM (int_to_pitch C) (w ++ outs) = Some C.
Proof.
  intros Hlen Hex. rewrite training_examples_ok in Hex.
  injection Hex as <- <-.
  exists (window_codes W C (pitch_to_int C) 0). split.
  - rewrite list_lookup_fmap, lookup_seq_lt by lia. done.
  - rewrite targets_are_codes. unfold window_codes. rewrite drop_0.
    rewrite <- map_app, take_drop. apply mapM_Some.
    apply Forall2_fmap_l, Forall_Forall2_diag, Forall_forall.
    intros t Ht. by apply int_to_pitch_code.
Qed.

Lemma examples_decode_witness :
  ∃ w, ([[0; 1]; [1; 2]] : list (list nat)) !! 0 = Some w ∧
       mapM (int_to_pitch scenario) (w ++ [2; 0]) = Some scenario.
Proof.
  apply (examples_decode 2 scenario [[0; 1]; [1; 2]] [2; 0]);
    [vm_compute; lia|vm_compute; reflexivity].
Defined.

(** ** The vocabulary: what it depends on *)

Lemma py_set_ext (C1 C2 : list string) :
  (∀ t, t ∈ C1 ↔ t ∈ C2) → py_set C1 = py_set C2.
Proof.
  intros Heq. unfold py_set. apply set_eq. intros t.
  by rewrite !elem_of_list_to_set.
Qed.

(** X4. The vocabulary depends on the set of the tokens only: in whatever
    order the distinct tokens of a corpus are listed before they are
    sorted (the order in which Python iterates a set is not fixed), and
    for whatever corpus with the same tokens, the sorted list and the
    dictionary built from it are the same. *)
Theorem vocabulary_of_token_set (C1 C2 : list string) (l : list string) :
  (∀ t, t ∈ C1 ↔ t ∈ C2) →
  l ≡ₚ elements (py_set C1) →
  sorted l = pitch_names C2 ∧
  dict_of (enumerate (sorted l)) = pitch_to_int C2.
Proof.
  intros Heq Hl.
  assert (Hs : sorted l = pitch_names C2).
  { apply (Sorted_unique String.le).
    - apply (Sorted_merge_sort _).
    - apply (Sorted_merge_sort _).
    - unfold pitch_names, sorted.
      rewrite !merge_sort_Permutation, Hl. by rewrite (py_set_ext C1 C2). }
  split; [done|]. unfold pitch_to_int. by rewrite Hs.
Qed.

Lemma vocabulary_of_token_set_witness :
  sorted ["E4"; "C4"; "D4"] = pitch_names scenario ∧
  dict_of (enumerate (sorted ["E4"; "C4"; "D4"])) = pitch_to_int scenario.
Proof.
  apply (vocabulary_of_token_set ["D4"; "E4"; "C4"; "D4"] scenario).
  - intros t. unfold scenario. rewrite !list_elem_of_In. simpl. tauto.
  - vm_compute. apply perm_swap.
Defined.

Lemma pitch_names_remove_dups (C : list string) :
  pitch_names C ≡ₚ remove_dups C.
Proof.
  rewrite pitch_names_perm. unfold py_set.
  rewrite <- (elements_list_to_set (C := gset string) (remove_dups C))
    by apply NoDup_remove_dups.
  f_equiv. intros t. by rewrite !elem_of_list_to_set, elem_of_remove_dups.
Qed.

Lemma filter_all {A} (P : A → Prop) `{∀ x, Decision (P x)} (l : list A) :
  Forall P l → filter P l = l.
Proof.
  induction 1 as [|x l Hx _ IH]; [done|].
  rewrite filter_cons_True by done. by rewrite IH.
Qed.

Lemma filter_none {A} (P : A → Prop) `{∀ x, Decision (P x)} (l : list A) :
  Forall (λ x, ¬ P x) l → filter P l = [].
Proof.
  induction 1 as [|x l Hx _ IH]; [done|].
  by rewrite filter_cons_False.
Qed.

(** In a sorted list without duplicates, an element stands after exactly
    the elements smaller than it. *)
Lemma sorted_rank (xs : list string) (k : nat) (t : string) :
  StronglySorted String.le xs → NoDup xs → xs !! k = Some t →
  length (filter (λ s, token_lt s t) xs) = k.
Proof.
  intros Hs Hnd Hk.
  rewrite <- (take_drop_middle xs k t Hk).
  rewrite filter_app, filter_cons_False by (intros [_ ?]; done).
  rewrite filter_all, filter_none.
  - rewrite app_nil_r, length_take. apply lookup_lt_Some in Hk. lia.
  - apply Forall_forall. intros s Hin Hlt.
    apply list_elem_of_lookup in Hin as [j Hj]. rewrite lookup_drop in Hj.
    apply (sorted_positions xs (S k + j) k s t Hs Hnd Hj Hk) in Hlt. lia.
  - apply Forall_forall. intros s Hin.
    apply elem_of_take in Hin as (j & Hj & Hjk).
    by apply (sorted_positions xs j k s t Hs Hnd Hj Hk).
Qed.

Lemma code_is_rank (C : list string) (t : string) (k : nat) :
  pitch_to_int C !! t = Some k →
  k = length (filter (λ s, token_lt s t) (remove_dups C)).
Proof.
  intros Hk%pitch_to_int_lookup.
  rewrite <- (pitch_names_remove_dups C).
  symmetry. apply sorted_rank; auto using pitch_names_sorted, pitch_names_NoDup.
Qed.

(** X5. The code of a token is its rank: the number of distinct tokens of
    the corpus that are smaller than it. *)
Theorem code_counts_smaller_tokens (C : list string) (t : string) (k : nat) :
  pitch_to_int C !! t = Some k ↔
  t ∈ C ∧ k = length (filter (λ s, token_lt s t) (remove_dups C)).
Proof.
  split.
  - intros Hk. split; [|by apply code_is_rank].
    apply pitch_to_int_lookup in Hk.
    by eapply elem_of_pitch_names, list_elem_of_lookup_2.
  - intros [Ht ->].
    destruct (pitch_to_int_total C t Ht) as (k & Hk & _).
    by rewrite <- (code_is_rank C t k Hk).
Qed.

(** X6. Codes under a growing corpus: when a corpus gains tokens, the
    code of a token it already had never decreases, and it is unchanged
    exactly as long as no new token is smaller than it; a vocabulary built
    from the smaller corpus is otherwise stale. *)
Theorem codes_under_growth (C C' : list string) (t : string) (k k' : nat) :
  (∀ s, s ∈ C → s ∈ C') →
  pitch_to_int C !! t = Some k →
  pitch_to_int C' !! t = Some k' →
  k ≤ k' ∧ (k = k' ↔ ∀ s, s ∈ C' → s ∉ C → ¬ token_lt s t).
Proof.
  intros Hsub Hk%code_is_rank Hk'%code_is_rank. subst k k'.
  set (P := λ s, token_lt s t).
  assert (Hnd : NoDup (filter P (remove_dups C))).
  { apply NoDup_filter, NoDup_remove_dups. }
  assert (Hnd' : NoDup (filter P (remove_dups C'))).
  { apply NoDup_filter, NoDup_remove_dups. }
  assert (Hincl : filter P (remove_dups C) ⊆+ filter P (remove_dups C')).
  { apply NoDup_submseteq; [done|]. intros s.
    rewrite !list_elem_of_filter, !elem_of_remove_dups.
    intros [HP Hs]. split; [done|by apply Hsub]. }
  split; [by apply submseteq_length|]. split.
  - intros Hlen s Hs' Hs HP.
    apply submseteq_length_Permutation in Hincl; [|lia].
    assert (Hin : s ∈ filter P (remove_dups C')).
    { apply list_elem_of_filter. by rewrite elem_of_remove_dups. }
    rewrite <- Hincl in Hin.
    apply list_elem_of_filter in Hin as [_ Hin].
    rewrite elem_of_remove_dups in Hin. done.
  - intros Hnew. apply Permutation_length, NoDup_Permutation; [done|done|].
    intros s. rewrite !list_elem_of_filter, !elem_of_remove_dups. split.
    + intros [HP Hs]. split; [done|by apply Hsub].
    + intros [HP Hs']. split; [done|].
      destruct (decide (s ∈ C)) as [|Hs]; [done|]. by destruct (Hnew s Hs' Hs).
Qed.

Lemma codes_under_growth_witness :
  1 ≤ 2 ∧ (1 = 2 ↔ ∀ s, s ∈ ["C4"; "E4"; "D4"] → s ∉ ["C4"; "E4"] →
                    ¬ token_lt s "E4").
Proof.
  apply (codes_under_growth ["C4"; "E4"] ["C4"; "E4"; "D4"] "E4" 1 2).
  - intros s. rewrite !list_elem_of_In. simpl. tauto.
  - vm_compute. reflexivity.
  - vm_compute. reflexivity.
Defined.

(** ** The target tensor and the vocabulary size *)

(** The last code belongs to the greatest token. *)
Lemma greatest_code (C : list string) (t : string) (k : nat) :
  pitch_to_int C !! t = Some k →
  S k = length (remove_dups C) ↔ ∀ s, s ∈ C → String.le s t.
Proof.
  intros Hk%pitch_to_int_lookup.
  rewrite <- (pitch_names_remove_dups C).
  pose proof (pitch_names_sorted C) as Hs.
  pose proof (pitch_names_NoDup C) as Hnd.
  apply lookup_lt_Some in Hk as Hlt. split.
  - intros HV s [j Hj]%elem_of_pitch_names%list_elem_of_lookup.
    apply lookup_lt_Some in Hj as Hjlt.
    destruct (decide (j = k)) as [->|Hne].
    + assert (s = t) as -> by congruence. done.
    + by apply (sorted_positions _ j k s t Hs Hnd Hj Hk); lia.
  - intros Hmax. destruct (decide (S k = length (pitch_names C))) as [|Hne]; [done|].
    exfalso. destruct (lookup_lt_is_Some_2 (pitch_names C) (S k)) as [s Hsk]; [lia|].
    destruct (proj1 (sorted_positions _ k (S k) t s Hs Hnd Hk Hsk)) as [Hle Hts]; [lia|].
    apply Hts, (anti_symm String.le); [done|].
    by eapply Hmax, elem_of_pitch_names, list_elem_of_lookup_2.
Qed.

(** X7. The width of the target tensor is the vocabulary size exactly
    when the greatest token of the corpus occurs at a position from 100
    on, that is, among the targets; otherwise the tensor is narrower than
    the vocabulary. *)
Theorem target_width_is_vocabulary_size (C : list string) (n : Z)
    (X : ndarray float64) (Y : ndarray Q) :
  100 < length C →
  prepare_sequences C n = OK (X, Y) →
  (shape Y = [length C - 100; length (remove_dups C)] ↔
   ∃ i t, 100 ≤ i ∧ C !! i = Some t ∧ ∀ s, s ∈ C → String.le s t) ∧
  ∃ width, shape Y = [length C - 100; width] ∧ width ≤ length (remove_dups C).
Proof.
  intros Hlen Hp. unfold prepare_sequences in Hp.
  rewrite prepare_sequences_with_eq in Hp. cbv zeta in Hp.
  unfold sequence_length in Hp. rewrite targets_are_codes in Hp.
  set (d := pitch_to_int C) in *.
  set (outs := map (code_of d) (drop 100 C)) in *.
  assert (Hlo : length outs = length C - 100).
  { unfold outs. by rewrite length_map, length_drop. }
  assert (Hne : outs ≠ []).
  { intros Hnil%(f_equal length). rewrite Hlo in Hnil. simpl in Hnil. lia. }
  rewrite to_categorical_ok in Hp by done. simpl in Hp.
  injection Hp as _ <-. simpl. rewrite Hlo.
  assert (Hcode : ∀ k, k ∈ outs ↔
            ∃ i t, 100 ≤ i ∧ C !! i = Some t ∧ d !! t = Some k).
  { intros k. unfold outs. rewrite list_elem_of_fmap. split.
    - intros (t & -> & [j Hj]%list_elem_of_lookup).
      rewrite lookup_drop in Hj. exists (100 + j), t.
      split_and!; [lia|done|].
      by eapply code_of_Some, pitch_to_int_is_Some, list_elem_of_lookup_2.
    - intros (i & t & Hi & Ht & Hk). exists t. split.
      + unfold code_of. by rewrite Hk.
      + apply list_elem_of_lookup. exists (i - 100).
        rewrite lookup_drop. by replace (100 + (i - 100)) with i by lia. }
  assert (Hmax : max_list outs ∈ outs) by (by apply max_list_elem_of).
  assert (Hbound : max_list outs + 1 ≤ length (remove_dups C)).
  { apply Hcode in Hmax as (i & t & _ & Ht & Hk).
    destruct (pitch_to_int_total C t) as (k & Hk' & HkV).
    { by eapply list_elem_of_lookup_2. }
    rewrite size_py_set in HkV. unfold d in Hk.
    assert (k = max_list outs) by congruence. lia. }
  split; [|eauto]. split.
  - intros [= HV]. apply Hcode in Hmax as (i & t & Hi & Ht & Hk).
    exists i, t. split_and!; [done|done|].
    apply (greatest_code C t (max_list outs) Hk). lia.
  - intros (i & t & Hi & Ht & Hgreat).
    destruct (pitch_to_int_total C t) as (k & Hk & HkV).
    { by eapply list_elem_of_lookup_2. }
    apply (greatest_code C t k Hk) in Hgreat.
    assert (Hin : k ∈ outs) by (apply Hcode; eauto).
    apply max_list_elem_of_le in Hin. do 2 f_equal. lia.
Qed.

Lemma target_width_is_vocabulary_size_witness :
  ∃ X Y, prepare_sequences corpus101 2 = OK (X, Y) ∧
         ¬ (∃ i t, 100 ≤ i ∧ corpus101 !! i = Some t ∧
                   ∀ s, s ∈ corpus101 → String.le s t).
Proof.
  assert (Hok : ∃ X Y, prepare_sequences corpus101 2 = OK (X, Y)).
  { unfold prepare_sequences. rewrite prepare_sequences_with_eq.
    vm_compute. eexists _, _. reflexivity. }
  destruct Hok as (X & Y & Hp).
  exists X, Y. split; [exact Hp|].
  destruct (target_width_is_vocabulary_size corpus101 2 X Y) as [[_ Hiff] _].
  - vm_compute; lia.
  - exact Hp.
  - intros Hgreat%Hiff.
    unfold prepare_sequences in Hp. rewrite prepare_sequences_with_eq in Hp.
    vm_compute in Hp. injection Hp as _ <-. vm_compute in Hgreat. discriminate.
Defined.

(** ** Extending a corpus *)

Lemma pitch_to_int_ext (C1 C2 : list string) :
  (∀ t, t ∈ C1 ↔ t ∈ C2) → pitch_to_int C1 = pitch_to_int C2.
Proof.
  intros Heq. unfold pitch_to_int, pitch_names.
  by rewrite (py_set_ext C1 C2 Heq).
Qed.

(** X8. Appending to a corpus tokens it already contains keeps the
    examples there were and appends new ones: the examples of the
    extended corpus begin with the examples of the corpus, windows and
    targets alike. *)
Theorem examples_of_extended_corpus (W : nat) (C E : list string) :
  (∀ t, t ∈ E → t ∈ C) →
  ∃ ins outs ins2 outs2,
    training_examples W C = OK (ins, outs) ∧
    training_examples W (C ++ E) = OK (ins ++ ins2, outs ++ outs2) ∧
    length ins2 = length (C ++ E) - W - (length C - W).
Proof.
  intros HE. rewrite !training_examples_ok.
  assert (Hd : pitch_to_int (C ++ E) = pitch_to_int C).
  { apply pitch_to_int_ext. intros t. rewrite elem_of_app.
    split; [intros [?|?]; auto|auto]. }
  rewrite Hd. set (d := pitch_to_int C).
  set (N := length C - W). set (N' := length (C ++ E) - W).
  assert (HN : N' = N + (N' - N)).
  { unfold N, N'. rewrite length_app. lia. }
  eexists _, _,
    (map (window_codes W (C ++ E) d) (seq N (N' - N))),
    (map (target_code W (C ++ E) d) (seq N (N' - N))).
  split; [reflexivity|]. split.
  - rewrite HN at 1 2. rewrite !seq_app, !map_app. simpl. do 2 f_equal.
    + f_equal. apply map_ext_in. intros i Hi%in_seq.
      unfold window_codes. f_equal. unfold N in Hi.
      rewrite drop_app_le by lia. apply take_app_le.
      rewrite length_drop. lia.
    + f_equal. apply map_ext_in. intros i Hi%in_seq.
      unfold target_code. unfold N in Hi. by rewrite lookup_app_l by lia.
  - by rewrite length_map, length_seq.
Qed.

Lemma examples_of_extended_corpus_witness :
  ∃ ins2 outs2,
    training_examples 2 (scenario ++ ["D4"])
      = OK ([[0; 1]; [1; 2]] ++ ins2, [2; 0] ++ outs2) ∧ length ins2 = 1.
Proof.
  destruct (examples_of_extended_corpus 2 scenario ["D4"])
    as (ins & outs & ins2 & outs2 & Hex & Hext & Hlen).
  - intros t. unfold scenario. rewrite !list_elem_of_In. simpl. tauto.
  - vm_compute in Hex. injection Hex as <- <-.
    exists ins2, outs2. split; [exact Hext|exact Hlen].
Defined.

(** ** get_notes: the corpus, the files and the console *)

(** X9. The loop over a stream never alters the tokens already collected:
    it appends to them, in the order of the stream, one token for every
    note and every chord, and nothing for any other element. *)
Theorem append_tokens_accounting (notes : list string)
    (stream : list structure) :
  ∃ new,
    append_tokens notes stream = notes ++ new ∧
    new = omap token_of stream ∧
    length new = length (filter (λ s, is_event s) stream) ∧
    (Forall (λ s, s = OtherElement) stream → new = []).
Proof.
  exists (omap token_of stream). split_and!.
  - apply append_tokens_app.
  - done.
  - induction stream as [|s stream IH]; [done|].
    destruct s; csimpl; rewrite ?filter_cons_True, ?filter_cons_False by done;
      simpl; by rewrite ?IH.
  - induction 1 as [|s stream -> _ IH]; [done|]. by csimpl.
Qed.

Lemma append_tokens_accounting_witness :
  ∃ new, append_tokens ["C4"] [OtherElement; OtherElement] = ["C4"] ++ new ∧
         new = [].
Proof.
  destruct (append_tokens_accounting ["C4"] [OtherElement; OtherElement])
    as (new & Happ & _ & _ & Hnone).
  exists new. split; [exact Happ|]. apply Hnone. repeat constructor.
Defined.









(** The console after the loop over the files: one line for every file
    reached, the one that fails included. *)
Lemma parse_files_stdout (E : collaborators) (paths : list string)
    (notes : list string) (w : world) :
  ∃ k,
    k ≤ length paths ∧
    stdout (parse_files E paths notes w).2
      = stdout w ++ map progress_line (take k paths) ∧
    ((∃ c, (parse_files E paths notes w).1 = OK c) → k = length paths) ∧
    (∀ e, (parse_files E paths notes w).1 = Raise e →
       ∃ file, last (take k paths) = Some file ∧
               converter_parse E file = Raise e).
Proof.
  revert notes w. induction paths as [|file paths IH]; intros notes w.
  - exists 0. simpl. rewrite app_nil_r. split_and!; [done|done|done|].
    intros e He. discriminate.
  - simpl. unfold mbind, io_bind, print, io_lift. simpl.
    destruct (converter_parse E file) as [s|e] eqn:Hparse.
    + change (parse_files E paths ?n ?w) with (parse_files E paths n w).
      destruct (IH (append_tokens notes (notes_by_instrument s))
                  (World (files w) (stdout w ++ ["Parsing file " +:+ file])))
        as (k & Hk & Hout & Hok & Hraise).
      destruct (parse_files E paths _ _) as [[c|e] w']; simpl in *.
      * exists (S k). split_and!; [lia| |intros _; f_equal; eauto|done].
        rewrite Hout. simpl. by rewrite <- app_assoc.
      * exists (S k). split_and!; [lia| |intros [c [=]]|].
        -- rewrite Hout. simpl. by rewrite <- app_assoc.
        -- intros e' He'. destruct (Hraise e' He') as (f & Hlast & Hf).
           exists f. split; [|done]. simpl.
           destruct (take k paths) eqn:Htake; [done|]. exact Hlast.
    + exists 1. simpl. split_and!; [lia|by destruct paths|intros [c [=]]|].
      intros e' [= <-]. eauto.
Qed.

(** X13. [get_notes] prints one line for every file it reaches, in the
    order of the files and before it parses the file: all the files when
    it returns, the files up to the one that does not parse, that one
    included, when it raises. *)
Theorem get_notes_progress (E : collaborators) (d : string) (w : world) :
  ∃ k,
    k ≤ length (glob_glob E d) ∧
    stdout (get_notes E d w).2
      = stdout w ++ map progress_line (take k (glob_glob E d)) ∧
    ((∃ c, (get_notes E d w).1 = OK c) → k = length (glob_glob E d)) ∧
    (∀ e, (get_notes E d w).1 = Raise e →
       ∃ file, last (take k (glob_glob E d)) = Some file ∧
               converter_parse E file = Raise e).
Proof.
  destruct (parse_files_stdout E (glob_glob E d) [] w)
    as (k & Hk & Hout & Hok & Hraise).
  exists k. unfold get_notes, mbind, io_bind.
  destruct (parse_files E (glob_glob E d) [] w) as [[c|e] w']; simpl in *.
  - split_and!; [done|done|intros _; eauto|done].
  - split_and!; [done|done|intros [c [=]]|done].
Qed.

Lemma get_notes_progress_witness :
  ∃ k, stdout (get_notes studio "midi/*.mid" blank).2
         = stdout blank
           ++ map progress_line (take k (glob_glob studio "midi/*.mid")) ∧
       k = 2.
Proof.
  destruct (get_notes_progress studio "midi/*.mid" blank)
    as (k & _ & Hout & Hok & _).
  exists k. split; [exact Hout|]. apply Hok. eexists. reflexivity.
Defined.

(** ** Chord tokens *)

Lemma py_int_str_int (z : Z) : py_int (str_int z) = OK z.
Proof.
  unfold py_int, str_int. rewrite NilZero.isi.
  - by rewrite DecimalZ.of_to.
  - destruct z; simpl; try discriminate.
    intros [= H]. by apply Unsigned.to_uint_nonnil in H.
  - destruct z; simpl; try discriminate.
    intros [= H]. by apply Unsigned.to_uint_nonnil in H.
Qed.

Lemma str_int_nonempty (z : Z) : str_int z ≠ EmptyString.
Proof.
  intros Hz. pose proof (py_int_str_int z) as H. rewrite Hz in H. discriminate.
Qed.

Lemma dotless_uint (d : Decimal.uint) :
  dotless (NilEmpty.string_of_uint d) = true.
Proof. induction d; simpl; done. Qed.

Lemma dotless_str_int (z : Z) : dotless (str_int z) = true.
Proof.
  unfold str_int, NilZero.string_of_int, NilZero.string_of_uint.
  destruct (Z.to_int z) as [d|d]; destruct d; simpl; auto using dotless_uint.
Qed.

Lemma py_split_dotless (w : string) :
  dotless w = true → py_split "." w = [w].
Proof.
  induction w as [|c w IH]; [done|]. simpl.
  intros [Hc Hw]%andb_prop. apply negb_true_iff in Hc.
  rewrite Hc, (IH Hw). done.
Qed.

Lemma py_split_cons (w rest : string) :
  dotless w = true →
  py_split "." (w +:+ String "." rest) = w :: py_split "." rest.
Proof.
  induction w as [|c w IH]; [done|]. simpl.
  intros [Hc Hw]%andb_prop. apply negb_true_iff in Hc.
  change (String.append w (String "." rest)) with (w +:+ String "." rest).
  rewrite Hc, (IH Hw). done.
Qed.

Lemma py_split_join (z : Z) (l : list Z) :
  py_split "." (String.concat "." (str_int z :: map str_int l))
    = str_int z :: map str_int l.
Proof.
  revert z. induction l as [|y l IH]; intros z.
  - simpl. apply py_split_dotless, dotless_str_int.
  - change (String.concat "." (str_int z :: map str_int (y :: l)))
      with (str_int z +:+ String "." (String.concat "." (str_int y :: map str_int l))).
    rewrite py_split_cons by apply dotless_str_int. by rewrite IH.
Qed.

Lemma rmap_py_int (l : list Z) : rmap py_int (map str_int l) = OK l.
Proof.
  induction l as [|z l IH]; [done|]. simpl.
  rewrite py_int_str_int. simpl. by rewrite IH.
Qed.

(** X14. A chord token determines the chord: splitting the token of a
    chord with at least one pitch class at the dots and reading the
    integers gives back its normal order, and two chords with different
    normal orders never get the same token. *)
Theorem chord_token_round_trip :
  (∀ z l token,
     token_of (Chord (z :: l)) = Some token →
     chord_of_token token = OK (z :: l)) ∧
  (∀ l1 l2, token_of (Chord l1) = token_of (Chord l2) → l1 = l2).
Proof.
  assert (Hsplit : ∀ z l,
            py_split "." (String.concat "." (map str_int (z :: l)))
              = map str_int (z :: l)) by apply py_split_join.
  split.
  - intros z l token Htoken.
    assert (token = String.concat "." (map str_int (z :: l))) as ->
      by (unfold token_of in Htoken; congruence).
    unfold chord_of_token. rewrite Hsplit. apply rmap_py_int.
  - intros l1 l2 Htokens.
    assert (Heq : String.concat "." (map str_int l1)
                  = String.concat "." (map str_int l2))
      by (unfold token_of in Htokens; congruence).
    apply (f_equal (py_split ".")) in Heq.
    destruct l1 as [|z1 l1], l2 as [|z2 l2]; [done| | |].
    + rewrite Hsplit in Heq. injection Heq as Hz _.
      symmetry in Hz. by apply str_int_nonempty in Hz.
    + rewrite Hsplit in Heq. injection Heq as Hz _.
      by apply str_int_nonempty in Hz.
    + rewrite !Hsplit in Heq.
      apply (f_equal (rmap py_int)) in Heq. rewrite !rmap_py_int in Heq.
      congruence.
Qed.

Lemma chord_token_round_trip_witness :
  chord_of_token "0.4.7" = OK [0; 4; 7]%Z.
Proof.
  apply (proj1 chord_token_round_trip 0%Z [4; 7]%Z "0.4.7"). reflexivity.
Defined.

(** ** create_network *)

(** X15. [create_network] reads the second and the third dimension of its
    input: on an array with fewer than three dimensions it raises
    [IndexError], for every class count. On an array with at least three
    and for a positive class count it returns a model of eleven layers
    that takes samples of the shape of these two dimensions and in which
    every layer accepts the output of the layer before it; the output of
    the model is one vector of [num_classes] scores. *)
Theorem create_network_dimensions {A} (input_data : ndarray A)
    (num_classes : Z) :
  (length (shape input_data) < 3 →
   create_network input_data num_classes = Raise IndexError) ∧
  (∀ batch timesteps features rest,
     shape input_data = batch :: timesteps :: features :: rest →
     (0 < num_classes)%Z →
     ∃ m,
       create_network input_data num_classes = OK m ∧
       length (layers m) = 11 ∧
       network_input_shape m = Some [Z.of_nat timesteps; Z.of_nat features] ∧
       network_output_shape m = OK [num_classes] ∧
       loss m = "categorical_crossentropy" ∧ optimizer m = "rmsprop").
Proof.
  split.
  - intros Hlen. unfold create_network, tuple_getitem, list_getitem.
    destruct (shape input_data) as [|b [|t [|f rest]]]; simpl in *;
      [done|done|done|lia].
  - intros batch timesteps features rest Hshape Hpos.
    unfold create_network. rewrite Hshape. simpl.
    eexists. split; [reflexivity|]. by split_and!.
Qed.

Lemma create_network_dimensions_witness :
  create_network (Ndarray [5; 100] (replicate 500 0)) 3 = Raise IndexError ∧
  ∃ m, create_network (Ndarray [5; 100; 1] (replicate 500 0)) 3 = OK m ∧
       network_output_shape m = OK [3%Z].
Proof.
  split.
  - apply (create_network_dimensions (Ndarray [5; 100] (replicate 500 0)) 3).
    simpl. lia.
  - destruct (proj2 (create_network_dimensions
                       (Ndarray [5; 100; 1] (replicate 500 0)) 3)
                5 100 1 [] eq_refl)
      as (m & Hm & _ & _ & Hout & _); [lia|].
    exists m. split; [exact Hm|exact Hout].
Defined.

(** X16. The encoder and the model builder fit together: for a corpus of
    more than 100 tokens and a positive class count, the input tensor of
    [prepare_sequences] is accepted by [create_network], and the model
    built takes samples of shape [(100, 1)], the shape of the rows of
    that tensor, and gives [num_classes] scores. *)
Theorem network_for_prepared_sequences (C : list string) (n : Z)
    (X : ndarray float64) (Y : ndarray Q) :
  100 < length C → (0 < n)%Z →
  prepare_sequences C n = OK (X, Y) →
  ∃ m,
    create_network X n = OK m ∧
    shape X = [length C - 100; 100; 1] ∧
    network_input_shape m = Some [100; 1]%Z ∧
    network_output_shape m = OK [n].
Proof.
  intros Hlen Hn Hp. unfold prepare_sequences in Hp.
  rewrite prepare_sequences_with_eq in Hp. cbv zeta in Hp.
  destruct (to_categorical _) as [y|e]; [|discriminate].
  simpl in Hp. injection Hp as <- <-.
  unfold create_network, sequence_length. simpl.
  eexists. split; [reflexivity|]. by split_and!.
Qed.

Lemma network_for_prepared_sequences_witness :
  ∃ X Y m, prepare_sequences corpus101 2 = OK (X, Y) ∧
           create_network X 2 = OK m ∧
           network_output_shape m = OK [2%Z].
Proof.
  assert (Hok : ∃ X Y, prepare_sequences corpus101 2 = OK (X, Y)).
  { unfold prepare_sequences. rewrite prepare_sequences_with_eq.
    vm_compute. eexists _, _. reflexivity. }
  destruct Hok as (X & Y & Hp).
  destruct (network_for_prepared_sequences corpus101 2 X Y)
    as (m & Hm & _ & _ & Hout); [vm_compute; lia|lia|exact Hp|].
  exists X, Y, m. split; [exact Hp|]. split; [exact Hm|exact Hout].
Defined.
